(** * Verification of [pylib/anki/template.py]

    A shallow embedding of the Python half of Anki's card-template
    rendering: the custom filter pipeline ([apply_custom_filters],
    [render_card_from_context], [render_card]) and the cloze expansion used
    by the media check ([expand_clozes]).

    Python strings are modelled as lists of 8-bit characters.  The [re]
    module is modelled by a backtracking matcher over a small regular
    expression syntax that covers the constructs occurring in the patterns
    of the file: literals, [.], [\d], concatenation, greedy and lazy
    repetition, optional groups and capture groups, under the flags [(?s)]
    and [(?i)].  Among 8-bit characters [\d] matches the ten ASCII digits,
    and case folding is that of the ASCII letters, which is all the
    literals of the patterns need. *)

From Stdlib Require Import Ascii String DecimalString.
From stdpp Require Import gmap strings list.

Local Open Scope list_scope.

Abbreviation str := (list ascii).
Abbreviation groups := (gmap string (list ascii)).

(** A Python string literal as a list of characters. *)
Definition L (s : string) : str := list_ascii_of_string s.

(** ** Characters *)

Definition code (c : ascii) : nat := nat_of_ascii c.

Definition is_digit (c : ascii) : bool :=
  (48 <=? code c) && (code c <=? 57).

Definition is_upper (c : ascii) : bool :=
  (65 <=? code c) && (code c <=? 90).

Definition lower (c : ascii) : ascii :=
  if is_upper c then ascii_of_nat (code c + 32) else c.

Definition newline : ascii := ascii_of_nat 10.

(** Whitespace as stripped by [str.strip()], on 8-bit characters. *)
Definition is_space (c : ascii) : bool :=
  let n := code c in
  ((9 <=? n) && (n <=? 13)) || ((28 <=? n) && (n <=? 32))
  || (n =? 133) || (n =? 160).

(** ** Regular expressions of the [re] module *)

Record flags := { dotall : bool; ignorecase : bool }.

Inductive greed := Greedy | Lazy.

Inductive regex :=
| Lit (c : ascii)
| Dot
| Digit
| Eps
| Cat (r1 r2 : regex)
| Opt (g : greed) (r : regex)
| Star (g : greed) (r : regex)
| Group (name : string) (r : regex).

(** [x+] and [x+?]. *)
Definition Plus (g : greed) (r : regex) : regex := Cat r (Star g r).

(** A literal string inside a pattern. *)
Fixpoint Lits (s : str) : regex :=
  match s with
  | [] => Eps
  | c :: s' => Cat (Lit c) (Lits s')
  end.

Definition lit_match (fl : flags) (c d : ascii) : bool :=
  if ignorecase fl then bool_decide (lower c = lower d)
  else bool_decide (c = d).

Definition dot_match (fl : flags) (d : ascii) : bool :=
  dotall fl || negb (bool_decide (d = newline)).

Definition orelse {A} (x y : option A) : option A :=
  match x with Some _ => x | None => y end.

(** One repetition loop of the matcher: [body] matches one iteration and
    [k] is what follows the repetition.  A greedy loop tries one more
    iteration first, a lazy one tries [k] first.  An iteration has to
    consume input, so [length s] iterations are always enough. *)
Fixpoint star_loop {R} (gr : greed)
    (body : str -> groups -> (str -> groups -> option R) -> option R)
    (k : str -> groups -> option R) (n : nat) (s : str) (g : groups)
    {struct n} : option R :=
  match n with
  | O => k s g
  | S n' =>
      let more :=
        body s g (fun s' g' =>
          if length s' <? length s then star_loop gr body k n' s' g' else None) in
      match gr with
      | Greedy => orelse more (k s g)
      | Lazy => orelse (k s g) more
      end
  end.

(** The backtracking matcher, in continuation-passing style.  [k] is what
    remains to be matched after [r]; alternatives are tried in the order of
    the [re] module and the first success is returned. *)
Fixpoint bt {R} (fl : flags) (r : regex) (s : str) (g : groups)
    (k : str -> groups -> option R) {struct r} : option R :=
  match r with
  | Lit c =>
      match s with
      | d :: s' => if lit_match fl c d then k s' g else None
      | [] => None
      end
  | Dot =>
      match s with
      | d :: s' => if dot_match fl d then k s' g else None
      | [] => None
      end
  | Digit =>
      match s with
      | d :: s' => if is_digit d then k s' g else None
      | [] => None
      end
  | Eps => k s g
  | Cat r1 r2 => bt fl r1 s g (fun s' g' => bt fl r2 s' g' k)
  | Opt Greedy r1 => orelse (bt fl r1 s g k) (k s g)
  | Opt Lazy r1 => orelse (k s g) (bt fl r1 s g k)
  | Star gr r1 =>
      star_loop gr (fun s' g' k' => bt fl r1 s' g' k') k (length s) s g
  | Group name r1 =>
      bt fl r1 s g (fun s' g' =>
        k s' (<[name := take (length s - length s') s]> g'))
  end.

(** One match object: the matched text and the groups that took part. *)
Record Match := { m_text : str; m_groups : groups }.

(** [pattern.match] at the start of [s]; with [adv] an empty match is
    refused (the [must_advance] state of the search loop).  Returns the
    match and the text after it. *)
Definition match_at (fl : flags) (r : regex) (adv : bool) (s : str)
  : option (Match * str) :=
  bt fl r s ∅ (fun s' g =>
    if adv && (length s' =? length s) then None
    else Some ({| m_text := take (length s - length s') s; m_groups := g |}, s')).

(** The search loop shared by [re.findall] and [re.sub]: the text is cut
    into characters that no match covers and matches, leftmost first and
    without overlap. *)
Inductive piece := Text (c : ascii) | Hit (m : Match).

Fixpoint scan_go (fl : flags) (r : regex) (fuel : nat) (adv : bool) (s : str)
  : list piece :=
  match fuel with
  | O => Text <$> s
  | S fuel' =>
      match match_at fl r adv s with
      | Some (m, rest) =>
          Hit m :: (if bool_decide (m_text m = [])
                    then scan_go fl r fuel' true s
                    else scan_go fl r fuel' false rest)
      | None =>
          match s with
          | [] => []
          | c :: s' => Text c :: scan_go fl r fuel' false s'
          end
      end
  end.

Definition scan (fl : flags) (r : regex) (s : str) : list piece :=
  scan_go fl r (2 * length s + 2) false s.

(** [re.sub(pattern, repl, string)] with a function as [repl]. *)
Definition piece_out (repl : Match -> str) (p : piece) : str :=
  match p with
  | Text c => [c]
  | Hit m => repl m
  end.

Definition re_sub (fl : flags) (r : regex) (repl : Match -> str) (s : str) : str :=
  concat (piece_out repl <$> scan fl r s).

(** [m.group(name)]: [None] when the group took no part in the match. *)
Definition group (m : Match) (name : string) : option str :=
  m_groups m !! name.

(** [re.findall] for a pattern with exactly one group: the text of that
    group in every match (the empty string when it took no part). *)
Definition hits (ps : list piece) : list Match :=
  omap (fun p => match p with Hit m => Some m | Text _ => None end) ps.

Definition re_findall (fl : flags) (r : regex) (s : str) : list str :=
  (fun m => default [] (group m "1")) <$> hits (scan fl r s).

(** ** Cloze handling *)

Definition no_flags : flags := {| dotall := false; ignorecase := false |}.
Definition si_flags : flags := {| dotall := true; ignorecase := true |}.

Definition CLOZE_REGEX_MATCH_GROUP_TAG : string := "tag".
Definition CLOZE_REGEX_MATCH_GROUP_CONTENT : string := "content".
Definition CLOZE_REGEX_MATCH_GROUP_HINT : string := "hint".

(** [clozeReg], to be used under [si_flags]; the argument is what is
    interpolated for [%s].  The unnamed group around the hint is group 3. *)
Definition clozeReg (ord : regex) : regex :=
  Cat (Lit "{") (Cat (Lit "{")
  (Cat (Group CLOZE_REGEX_MATCH_GROUP_TAG (Lit "c"))
  (Cat ord
  (Cat (Lit ":") (Cat (Lit ":")
  (Cat (Group CLOZE_REGEX_MATCH_GROUP_CONTENT (Star Lazy Dot))
  (Cat (Opt Greedy
          (Group "3" (Cat (Lit ":") (Cat (Lit ":")
             (Group CLOZE_REGEX_MATCH_GROUP_HINT (Star Lazy Dot))))))
  (Cat (Lit "}") (Lit "}"))))))))).

(** [r"{{c(\d+)::.+?}}"], used without flags. *)
Definition ords_reg : regex :=
  Cat (Lit "{") (Cat (Lit "{") (Cat (Lit "c")
  (Cat (Group "1" (Plus Greedy Digit))
  (Cat (Lit ":") (Cat (Lit ":")
  (Cat (Plus Lazy Dot)
  (Cat (Lit "}") (Lit "}")))))))).

(** [clozeReg % ".+?"] *)
Definition any_cloze : regex := clozeReg (Plus Lazy Dot).

(** [clozeReg % ord] for an ordinal found by [ords_reg]: a run of digits,
    which the pattern compiler reads as literals. *)
Definition ord_cloze (ord : str) : regex := clozeReg (Lits ord).

Definition qrepl (m : Match) : str :=
  match group m CLOZE_REGEX_MATCH_GROUP_HINT with
  | Some (c :: h) => L "[" ++ (c :: h) ++ L "]"
  | _ => L "[...]"
  end.

Definition arepl (m : Match) : str :=
  default [] (group m CLOZE_REGEX_MATCH_GROUP_CONTENT).

(** The order in which a Python [set] built from a list yields its
    elements is not specified; it is an enumeration without repetition of
    the set of the list's elements. *)
Class SetOrder := {
  set_iter : list str -> list str;
  set_iter_perm : forall l, set_iter l ≡ₚ elements (list_to_set l : gset str)
}.

(** [re.findall(r"{{c(\d+)::.+?}}", string)], the list handed to [set]. *)
Definition found_ords (s : str) : list str := re_findall no_flags ords_reg s.

(** [re.sub(clozeReg % ".+?", arepl, s)] *)
Definition reveal_all (s : str) : str := re_sub si_flags any_cloze arepl s.

(** [re.sub(clozeReg % ord, qrepl, string)] *)
Definition mask_ord (ord : str) (s : str) : str :=
  re_sub si_flags (ord_cloze ord) qrepl s.

(** The body of the loop of [expand_clozes] for one ordinal: the markers
    of the ordinal are masked, then all remaining markers are revealed. *)
Definition question_variant (s : str) (ord : str) : str :=
  reveal_all (mask_ord ord s).

(** One string per ordinal of the set, then the fully revealed string. *)
Definition expand_clozes `{SetOrder} (s : str) : list str :=
  (question_variant s <$> set_iter (found_ords s)) ++ [reveal_all s].

(** Insertion order without repetition is one possible iteration order. *)
#[export] Program Instance first_seen : SetOrder := {| set_iter := remove_dups |}.
Next Obligation.
  intros l. apply NoDup_Permutation.
  - apply NoDup_remove_dups.
  - apply NoDup_elements.
  - intros x. rewrite elem_of_remove_dups, elem_of_elements, elem_of_list_to_set. done.
Qed.

(** ** Strings *)

Fixpoint lstrip (s : str) : str :=
  match s with
  | c :: s' => if is_space c then lstrip s' else s
  | [] => []
  end.

(** [str.strip()] *)
Definition strip (s : str) : str := reverse (lstrip (reverse (lstrip s))).

(** [s.split("::")], with the part being read kept in reverse in [cur]. *)
Fixpoint split_colons (s cur : str) : list str :=
  match s with
  | [] => [reverse cur]
  | c :: s' =>
      match c, s' with
      | ":"%char, ":"%char :: s'' => reverse cur :: split_colons s'' []
      | _, _ => split_colons s' (c :: cur)
      end
  end.

(** ["%d" % n] *)
Definition decimal (n : nat) : str :=
  L (DecimalString.NilEmpty.string_of_uint (Nat.to_uint n)).

(** ** Rendering: exceptions and state *)

Inductive exn :=
| BackendException (msg : str)
| OtherException (msg : str).

Inductive outcome (A : Type) :=
| Ok (a : A)
| Raise (e : exn).
Arguments Ok {A} a.
Arguments Raise {A} e.

Record Note := {
  note_items : list (str * str);
  note_stringTags : str
}.

Record Card := {
  card_ord : nat;
  card_did : nat;
  card_note_type_name : str;
  card_template : gmap str str;
  card_userFlag : nat
}.

(** One node of a [TemplateReplacementList]: a string, or a field
    replacement with the filters that are still to be applied. *)
Record TemplateReplacement := {
  field_name : str;
  current_text : str;
  filters : list str
}.

Inductive Node :=
| NText (s : str)
| NRepl (r : TemplateReplacement).

Section Render.

(** Values of [extra_state], and AV tags. *)
Context {Any AVTag : Type}.

Record Collection := {
  decks_name : nat -> str;
  backend_render_card :
    option str -> option str -> gmap str str -> nat ->
    outcome (list Node * list Node);
  backend_extract_av_tags : str -> bool -> outcome (str * list AVTag)
}.

Record TemplateRenderContext := {
  _col : Collection;
  _card : Card;
  _note : Note;
  _fields : gmap str str;
  _qfmt : option str;
  _afmt : option str;
  extra_state : gmap str Any
}.

Record TemplateRenderOutput := {
  question_text : str;
  answer_text : str;
  question_av_tags : list AVTag;
  answer_av_tags : list AVTag
}.

(** Code that runs during one render: it may raise, and it may change the
    dictionaries of the context, also when it raises. *)
Definition M (A : Type) : Type :=
  TemplateRenderContext -> outcome A * TemplateRenderContext.

#[export] Instance M_ret : MRet M := fun A a ctx => (Ok a, ctx).

#[export] Instance M_bind : MBind M := fun A B f m ctx =>
  match m ctx with
  | (Ok a, ctx') => f a ctx'
  | (Raise e, ctx') => (Raise e, ctx')
  end.

Definition get_ctx : M TemplateRenderContext := fun ctx => (Ok ctx, ctx).

Definition lift {A} (r : outcome A) : M A := fun ctx => (r, ctx).

(** [anki.lang._] and [anki.consts.HELP_SITE] *)
Variable tr : str -> str.
Variable HELP_SITE : str.

(** [hooks.field_filter(field_text, field_name, filter_name, ctx)] *)
Variable field_filter : str -> str -> str -> M str.

(** [anki.hooks.runFilter(hook, arg, *args)] with the four further
    arguments of the legacy call *)
Variable runFilter : str -> str -> str -> gmap str str -> str -> str -> M str.

(** [hooks.card_did_render(output, ctx)], which may change [output] *)
Variable card_did_render : TemplateRenderOutput -> M TemplateRenderOutput.

Definition templates_for_card (card : Card) (browser : bool)
  : option str * option str :=
  let template := card_template card in
  let '(q, a) := if browser then (L "bqfmt", L "bafmt") else (L "qfmt", L "afmt") in
  (template !! q, template !! a).

Definition fields_for_rendering (col : Collection) (card : Card) (note : Note)
  : outcome (gmap str str) :=
  let fields := fold_left (fun d kv => <[kv.1 := kv.2]> d) (note_items note) ∅ in
  let fields := <[L "Tags" := strip (note_stringTags note)]> fields in
  let fields := <[L "Type" := card_note_type_name card]> fields in
  let fields := <[L "Deck" := decks_name col (card_did card)]> fields in
  let fields :=
    <[L "Subdeck" :=
        default [] (last (split_colons (decks_name col (card_did card)) []))]>
      fields in
  match card_template card !! L "name" with
  | None => Raise (OtherException (L "KeyError: 'name'"))
  | Some name =>
      let fields := <[L "Card" := name]> fields in
      let flag := card_userFlag card in
      let fields :=
        <[L "CardFlag" := if flag =? 0 then [] else L "flag" ++ decimal flag]>
          fields in
      let fields := <[L "c" ++ decimal (card_ord card + 1) := L "1"]> fields in
      Ok fields
  end.

(** One step of the filter loop: the hook, then the legacy hook. *)
Definition apply_filter (field_name field_text filter_name : str) : M str :=
  field_text ← field_filter field_text field_name filter_name;
  ctx ← get_ctx;
  runFilter (L "fmod_" ++ filter_name) field_text [] (_fields ctx) field_name [].

Fixpoint apply_filters (field_name : str) (filters : list str) (field_text : str)
  : M str :=
  match filters with
  | [] => mret field_text
  | filter_name :: rest =>
      field_text ← apply_filter field_name field_text filter_name;
      apply_filters field_name rest field_text
  end.

(** The text a replacement node starts from, after the injection of
    [FrontSide]; the node keeps it as its [current_text]. *)
Definition inject_front_side (front_side : option str) (node : TemplateReplacement)
  : TemplateReplacement :=
  match front_side with
  | Some fs =>
      if bool_decide (field_name node = L "FrontSide")
      then {| field_name := field_name node; current_text := fs;
              filters := filters node |}
      else node
  | None => node
  end.

(** The body of the loop over the nodes: the text to append and the node
    as the loop leaves it. *)
Definition render_node (front_side : option str) (node : Node) : M (str * Node) :=
  match node with
  | NText s => mret (s, node)
  | NRepl r =>
      let r := inject_front_side front_side r in
      field_text ← apply_filters (field_name r) (filters r) (current_text r);
      mret (field_text, NRepl r)
  end.

Fixpoint apply_nodes (front_side : option str) (rendered : list Node) (res : str)
  : M (str * list Node) :=
  match rendered with
  | [] => mret (res, [])
  | node :: rest =>
      '(text, node') ← render_node front_side node;
      '(res', rest') ← apply_nodes front_side rest (res ++ text);
      mret (res', node' :: rest')
  end.

(** Returns the text and the nodes as the call leaves them. *)
Definition apply_custom_filters (rendered : list Node) (front_side : option str)
  : M (str * list Node) :=
  match rendered with
  | [NText s] => mret (s, rendered)
  | _ => apply_nodes front_side rendered []
  end.

Definition render_card_from_context : M TemplateRenderOutput :=
  ctx ← get_ctx;
  let col := _col ctx in
  '(qnodes, anodes) ←
    lift (backend_render_card col (_qfmt ctx) (_afmt ctx) (_fields ctx)
            (card_ord (_card ctx)));
  '(qtext, _) ← apply_custom_filters qnodes None;
  '(qtext, q_avtags) ← lift (backend_extract_av_tags col qtext true);
  '(atext, _) ← apply_custom_filters anodes (Some qtext);
  '(atext, a_avtags) ← lift (backend_extract_av_tags col atext false);
  mret {| question_text := qtext; answer_text := atext;
          question_av_tags := q_avtags; answer_av_tags := a_avtags |}.

Definition template_error_message (e : str) : str :=
  tr (L "Card template has a problem:") ++ L "<br>" ++ e.

Definition blank_front_message : str :=
  tr (L "The front of this card is blank.") ++
  L "<a href='" ++ HELP_SITE ++ L "'>" ++ tr (L "More info") ++ L "</a>".

Definition render_card (col : Collection) (card : Card) (note : Note)
    (browser : bool) : outcome TemplateRenderOutput :=
  match fields_for_rendering col card note with
  | Raise e => Raise e
  | Ok fields =>
      let '(qfmt, afmt) := templates_for_card card browser in
      let ctx := {| _col := col; _card := card; _note := note; _fields := fields;
                    _qfmt := qfmt; _afmt := afmt; extra_state := ∅ |} in
      let '(r, ctx) := render_card_from_context ctx in
      let r :=
        match r with
        | Ok output => Ok output
        | Raise (BackendException e) =>
            let errmsg := template_error_message e in
            Ok {| question_text := errmsg; answer_text := errmsg;
                  question_av_tags := []; answer_av_tags := [] |}
        | Raise e => Raise e
        end in
      match r with
      | Raise e => Raise e
      | Ok output =>
          let output :=
            match strip (question_text output) with
            | [] =>
                {| question_text := blank_front_message;
                   answer_text := answer_text output;
                   question_av_tags := question_av_tags output;
                   answer_av_tags := answer_av_tags output |}
            | _ => output
            end in
          (card_did_render output ctx).1
      end
  end.

End Render.

Arguments Collection : clear implicits.
Arguments TemplateRenderContext : clear implicits.
Arguments TemplateRenderOutput : clear implicits.
Arguments M : clear implicits.

(** Modelled from the spec: the filter handler registry behind
    [hooks.field_filter], which lives in [anki/hooks.py]: "a mutable,
    process-wide, append-only list of callables; resolution order is: ask
    each registered handler in registration order; each handler may either
    transform the text or leave it unchanged if the filter name is not its
    concern". *)
Fixpoint field_filter_registry {Any AVTag}
    (registry : list (str -> str -> str -> M Any AVTag str))
    (field_text field_name filter_name : str) : M Any AVTag str :=
  match registry with
  | [] => mret field_text
  | handler :: rest =>
      field_text ← handler field_text field_name filter_name;
      field_filter_registry rest field_text field_name filter_name
  end.

Fixpoint run_legacy {Any AVTag}
    (funcs : list (str -> str -> gmap str str -> str -> str -> M Any AVTag str))
    (arg a1 : str) (fields : gmap str str) (a3 a4 : str) : M Any AVTag str :=
  match funcs with
  | [] => mret arg
  | func :: rest =>
      arg ← func arg a1 fields a3 a4;
      run_legacy rest arg a1 fields a3 a4
  end.

(** Modelled from the spec: the legacy dispatch behind
    [anki.hooks.runFilter], which lives in [anki/hooks.py]: "a legacy-named
    dispatch ("fmod_" + filter_name) is tried as a secondary fallback
    chain"; "a filter with no registered handler is a no-op (text passes
    through unchanged)". *)
Definition runFilter_registry {Any AVTag}
    (legacy : gmap str (list (str -> str -> gmap str str -> str -> str -> M Any AVTag str)))
    (hook arg a1 : str) (fields : gmap str str) (a3 a4 : str) : M Any AVTag str :=
  match legacy !! hook with
  | Some funcs => run_legacy funcs arg a1 fields a3 a4
  | None => mret arg
  end.

(** * Specification-level definitions *)

(** [Den fl r m g g']: the text [m] is matched by [r], and the groups [g]
    become [g']. *)
Inductive Den (fl : flags) : regex -> str -> groups -> groups -> Prop :=
| D_lit c d g : lit_match fl c d = true -> Den fl (Lit c) [d] g g
| D_dot d g : dot_match fl d = true -> Den fl Dot [d] g g
| D_digit d g : is_digit d = true -> Den fl Digit [d] g g
| D_eps g : Den fl Eps [] g g
| D_cat r1 r2 m1 m2 g g1 g2 :
    Den fl r1 m1 g g1 -> Den fl r2 m2 g1 g2 -> Den fl (Cat r1 r2) (m1 ++ m2) g g2
| D_opt_some gr r m g g' : Den fl r m g g' -> Den fl (Opt gr r) m g g'
| D_opt_none gr r g : Den fl (Opt gr r) [] g g
| D_star_nil gr r g : Den fl (Star gr r) [] g g
| D_star_cons gr r m1 m2 g g1 g2 :
    Den fl r m1 g g1 -> m1 <> [] -> Den fl (Star gr r) m2 g1 g2 ->
    Den fl (Star gr r) (m1 ++ m2) g g2
| D_group name r m g g' :
    Den fl r m g g' -> Den fl (Group name r) m g (<[name := m]> g').

(** The part of the input that a piece stands for. *)
Definition piece_in (p : piece) : str :=
  match p with
  | Text c => [c]
  | Hit m => m_text m
  end.

(** [Scan fl r adv s ps]: the search loop, started on [s] with the
    [must_advance] state [adv], cuts [s] into the pieces [ps]. *)
Inductive Scan (fl : flags) (r : regex) : bool -> str -> list piece -> Prop :=
| Scan_end adv :
    match_at fl r adv [] = None -> Scan fl r adv [] []
| Scan_text adv c s ps :
    match_at fl r adv (c :: s) = None -> Scan fl r false s ps ->
    Scan fl r adv (c :: s) (Text c :: ps)
| Scan_hit adv s m rest ps :
    match_at fl r adv s = Some (m, rest) -> m_text m <> [] ->
    Scan fl r false rest ps -> Scan fl r adv s (Hit m :: ps)
| Scan_empty adv s m rest ps :
    match_at fl r adv s = Some (m, rest) -> m_text m = [] ->
    Scan fl r true s ps -> Scan fl r adv s (Hit m :: ps).

(** The lower-case ASCII letters. *)
Definition is_lowercase (c : ascii) : bool :=
  (97 <=? code c) && (code c <=? 122).

(** The tag letter of a marker, in either case. *)
Definition is_tag (t : ascii) : Prop := t = "c"%char \/ t = "C"%char.

(** [int(ord)] for a run of digits. *)
Definition ord_value (k : str) : nat :=
  fold_left (fun n d => 10 * n + (code d - 48)) k 0.

(** The markers that the masking pass for ordinal [k] replaces. *)
Definition masked_markers (k : str) (s : str) : list Match :=
  hits (scan si_flags (ord_cloze k) s).

(** A cloze marker is a text matched by [clozeReg % ".+?"]. *)
Definition is_cloze (m : str) : Prop :=
  exists g, Den si_flags any_cloze m ∅ g.

(** A cloze marker together with what its content group holds. *)
Definition cloze_content (m content : str) : Prop :=
  exists g, Den si_flags any_cloze m ∅ g /\ g !! "content" = Some content.

(** The explicit shape of a marker. *)
Definition cloze_shape (m : str) : Prop :=
  exists t o body,
    m = L "{{" ++ [t] ++ o ++ L "::" ++ body ++ L "}}" /\ is_tag t /\ o <> [].

(** ** Sample data for the examples *)

Definition sample_col (outcome_of_render : outcome (list Node * list Node))
  : Collection unit :=
  {| decks_name := fun _ => L "Languages::French";
     backend_render_card := fun _ _ _ _ => outcome_of_render;
     backend_extract_av_tags := fun text _ => Ok (text, []) |}.

Definition sample_card : Card :=
  {| card_ord := 0; card_did := 1; card_note_type_name := L "Basic";
     card_template :=
       <[L "name" := L "Card 1"]> (<[L "qfmt" := L "{{Front}}"]>
         (<[L "afmt" := L "{{FrontSide}}{{Back}}"]> ∅));
     card_userFlag := 0 |}.

Definition sample_note : Note :=
  {| note_items := [(L "Front", L "q"); (L "Back", L "a")];
     note_stringTags := L " t1 " |}.

Definition sample_ctx : TemplateRenderContext unit unit :=
  {| _col := sample_col (Ok ([], [])); _card := sample_card; _note := sample_note;
     _fields := ∅; _qfmt := None; _afmt := None; extra_state := ∅ |}.

(** A handler that only concerns itself with the filter [shout]. *)
Definition shout_handler (text field filter_name : str) : M unit unit str :=
  if bool_decide (filter_name = L "shout") then mret (text ++ L "!")
  else mret text.

Definition no_field_filter (text field filter_name : str) : M unit unit str :=
  mret text.

Definition no_runFilter (hook arg a1 : str) (fields : gmap str str) (a3 a4 : str)
  : M unit unit str := mret arg.

(** ** Definitions for the further properties *)

(** The text a node contributes when none of its filters is pending. *)
Definition node_text (front_side : option str) (node : Node) : str :=
  match node with
  | NText s => s
  | NRepl r => current_text (inject_front_side front_side r)
  end.

(** A node as the loop of [apply_custom_filters] leaves it. *)
Definition inject_node (front_side : option str) (node : Node) : Node :=
  match node with
  | NText s => NText s
  | NRepl r => NRepl (inject_front_side front_side r)
  end.

(** No filter is left to apply on the node. *)
Definition no_pending_filters (node : Node) : Prop :=
  match node with
  | NText _ => True
  | NRepl r => filters r = []
  end.

(** The context [render_card] builds. *)
Definition initial_context {Any AVTag : Type} (col : Collection AVTag) (card : Card)
    (note : Note) (browser : bool) (fields : gmap str str)
  : TemplateRenderContext Any AVTag :=
  {| _col := col; _card := card; _note := note; _fields := fields;
     _qfmt := (templates_for_card card browser).1;
     _afmt := (templates_for_card card browser).2;
     extra_state := ∅ |}.

(** The text holds the separator [::]. *)
Definition has_sep (s : str) : Prop := exists a b, s = a ++ L "::" ++ b.

(** [dict(note.items())[k]]: the last item under the key. *)
Definition note_field (note : Note) (k : str) : option str :=
  snd <$> last (filter (fun kv => kv.1 = k) (note_items note)).

(** The names of the fields that [fields_for_rendering] adds for a card
    at position [ord]. *)
Definition special_fields (ord : nat) : list str :=
  [L "Tags"; L "Type"; L "Deck"; L "Subdeck"; L "Card"; L "CardFlag";
   L "c" ++ decimal (ord + 1)].

(** A segment of a text: plain text, or one cloze marker. *)
Inductive seg :=
| Txt (t : str)
| Clz (tag : ascii) (ord content : str) (hint : option str).

Definition hint_part (hint : option str) : str :=
  match hint with
  | Some h => L "::" ++ h
  | None => []
  end.

(** The segment as it is written in the field. *)
Definition raw (sg : seg) : str :=
  match sg with
  | Txt t => t
  | Clz tag ord content hint =>
      L "{{" ++ [tag] ++ ord ++ L "::" ++ content ++ hint_part hint ++ L "}}"
  end.

(** The text made of the segments. *)
Definition text_of (segs : list seg) : str := concat (raw <$> segs).

(** Plain text holds no opening brace; the ordinal of a marker is a run of
    digits, its content is not empty and holds no brace and no colon, and
    its hint holds no brace. *)
Definition wf_seg (sg : seg) : Prop :=
  match sg with
  | Txt t => "{"%char ∉ t
  | Clz tag ord content hint =>
      is_tag tag /\ ord <> [] /\ Forall (fun d => is_digit d = true) ord /\
      content <> [] /\
      ("{"%char ∉ content) /\ ("}"%char ∉ content) /\ (":"%char ∉ content) /\
      ("{"%char ∉ hint_part hint) /\ ("}"%char ∉ hint_part hint)
  end.

Definition hint_mask (hint : option str) : str :=
  match hint with
  | Some (c :: h) => L "[" ++ (c :: h) ++ L "]"
  | _ => L "[...]"
  end.

(** The segment with its marker revealed. *)
Definition revealed (sg : seg) : str :=
  match sg with
  | Txt t => t
  | Clz _ _ content _ => content
  end.

(** The segment in the question for ordinal [k]. *)
Definition question (k : str) (sg : seg) : str :=
  match sg with
  | Txt t => t
  | Clz _ ord content hint =>
      if bool_decide (ord = k) then hint_mask hint else content
  end.

(** The segment after the masking pass for ordinal [k]. *)
Definition mask_seg (k : str) (sg : seg) : seg :=
  match sg with
  | Txt t => Txt t
  | Clz _ ord _ hint =>
      if bool_decide (ord = k) then Txt (hint_mask hint) else sg
  end.

(** The ordinal that the scan for ordinals reads off the segment: the tag
    has to be in lower case and the marker on one line. *)
Definition scanned_ord (sg : seg) : option str :=
  match sg with
  | Txt _ => None
  | Clz tag ord content hint =>
      if bool_decide (tag = "c"%char /\ newline ∉ content ++ hint_part hint)
      then Some ord else None
  end.

(** The groups of the match of [clozeReg] on a marker. *)
Definition marker_groups (tag : ascii) (content : str) (hint : option str)
  : groups :=
  match hint with
  | None => <["content" := content]> (<["tag" := [tag]]> ∅)
  | Some h =>
      <["3" := L "::" ++ h]>
        (<["hint" := h]> (<["content" := content]> (<["tag" := [tag]]> ∅)))
  end.

(** A pattern for the ordinal that matches exactly [ord] before a
    continuation that refuses digits. *)
Definition ord_ok (ordre : regex) (ord : str) : Prop :=
  forall R (k' : str -> groups -> option R) s' g (x : R),
    k' s' g = Some x ->
    (forall d s'', is_digit d = true -> k' (d :: s'') g = None) ->
    bt si_flags ordre (ord ++ s') g k' = Some x.

(** ** Markers read off the text *)

(** [s] starts with [p]. *)
Definition starts (p s : str) : bool := bool_decide (take (length p) s = p).

(** The text before the first occurrence of [p] and the text after it. *)
Fixpoint upto (p s : str) : option (str * str) :=
  if starts p s then Some ([], drop (length p) s)
  else
    match s with
    | [] => None
    | c :: s' => '(a, rest) ← upto p s'; Some (c :: a, rest)
    end.

(** What follows the ordinal and its [::] in a marker: the content up to
    the first [}}] or [::]; after [::] the hint up to the next [}}]. *)
Fixpoint body_at (s : str) : option (str * option str * str) :=
  if starts (L "}}") s then Some ([], None, drop 2 s)
  else if starts (L "::") s then
    '(hint, rest) ← upto (L "}}") (drop 2 s); Some ([], Some hint, rest)
  else
    match s with
    | [] => None
    | c :: s' => '(content, hint, rest) ← body_at s'; Some (c :: content, hint, rest)
    end.


(** The ordinal of [clozeReg % k]: the digits [k], then [::]. *)
Definition this_ord_at (k s : str) : option (str * str) :=
  if starts (k ++ L "::") s then Some (k, drop (length k + 2) s) else None.

(** The marker that starts at the head of [s], and the text after it. *)
Definition cloze_at (ord_at : str -> option (str * str)) (s : str)
  : option (seg * str) :=
  match s with
  | b1 :: b2 :: t :: s1 =>
      if bool_decide (b1 = "{"%char /\ b2 = "{"%char /\
                      (t = "c"%char \/ t = "C"%char))
      then
        '(ord, s2) ← ord_at s1;
        '(content, hint, rest) ← body_at s2;
        Some (Clz t ord content hint, rest)
      else None
  | _ => None
  end.

(** The text cut from left to right into the markers that [at_] reads and
    the characters between them. *)
Fixpoint parse_go (at_ : str -> option (seg * str)) (fuel : nat) (s : str)
  : list seg :=
  match fuel with
  | O => []
  | S fuel' =>
      match at_ s with
      | Some (sg, rest) => sg :: parse_go at_ fuel' rest
      | None =>
          match s with
          | [] => []
          | c :: s' => Txt [c] :: parse_go at_ fuel' s'
          end
      end
  end.


(** The cloze markers with the ordinal [k]. *)
Definition markers_of (k s : str) : list seg :=
  parse_go (cloze_at (this_ord_at k)) (length s) s.

(** The mask of a marker, and text as it is. *)
Definition masked (sg : seg) : str :=
  match sg with
  | Txt t => t
  | Clz _ _ _ hint => hint_mask hint
  end.







(** The match object of the cloze pattern on a marker. *)
Definition marker_match (sg : seg) : Match :=
  match sg with
  | Txt t => {| m_text := t; m_groups := ∅ |}
  | Clz t _ c h => {| m_text := raw sg; m_groups := marker_groups t c h |}
  end.

(** A field filter that fails. *)
Definition failing_field_filter (text field filter_name : str) : M unit unit str :=
  fun ctx => (Raise (OtherException (L "boom")), ctx).

Definition front_side_node : TemplateReplacement :=
  {| field_name := L "FrontSide"; current_text := L "old"; filters := [] |}.

Definition filtered_node : TemplateReplacement :=
  {| field_name := L "Front"; current_text := L "t"; filters := [L "x"] |}.

Definition sample_card_no_name : Card :=
  {| card_ord := 0; card_did := 1; card_note_type_name := L "Basic";
     card_template := ∅; card_userFlag := 0 |}.

Definition sample_segs : list seg :=
  [Txt (L "a "); Clz "c" (L "1") (L "x") (Some (L "h")); Txt (L " ");
   Clz "C" (L "2") (L "y") None].

(** * Properties of the matcher and of the search loop *)

(** ** What a pattern matches *)

Lemma orelse_Some {A} (x y : option A) (a : A) :
  orelse x y = Some a -> x = Some a \/ (x = None /\ y = Some a).
Proof. destruct x; simpl; intros; [left|right]; auto. Qed.

Lemma take_app_suffix (m s' : str) :
  take (length (m ++ s') - length s') (m ++ s') = m.
Proof.
  rewrite length_app.
  replace (length m + length s' - length s') with (length m) by lia.
  by rewrite take_app_length.
Qed.

(** Every result of the matcher comes from a split of the input into a
    text matched by [r] and a rest accepted by the continuation. *)
Lemma bt_sound {R} fl r : forall s g (k : str -> groups -> option R) res,
  bt fl r s g k = Some res ->
  exists m s' g', s = m ++ s' /\ Den fl r m g g' /\ k s' g' = Some res.
Proof.
  induction r as [c| | | |r1 IH1 r2 IH2|gr r1 IH|gr r1 IH|name r1 IH];
    intros s g k res H; simpl in H.
  - destruct s as [|d s']; [done|].
    destruct (lit_match fl c d) eqn:E; [|done].
    exists [d], s', g. split; [done|]. split; [by constructor|done].
  - destruct s as [|d s']; [done|].
    destruct (dot_match fl d) eqn:E; [|done].
    exists [d], s', g. split; [done|]. split; [by constructor|done].
  - destruct s as [|d s']; [done|].
    destruct (is_digit d) eqn:E; [|done].
    exists [d], s', g. split; [done|]. split; [by constructor|done].
  - exists [], s, g. split; [done|]. split; [constructor|done].
  - apply IH1 in H as (m1 & s1 & g1 & -> & D1 & H).
    apply IH2 in H as (m2 & s2 & g2 & -> & D2 & H).
    exists (m1 ++ m2), s2, g2. rewrite <- app_assoc.
    split; [done|]. split; [by econstructor|done].
  - assert (bt fl r1 s g k = Some res \/ k s g = Some res) as [H'|H'].
    { destruct gr; apply orelse_Some in H; tauto. }
    + apply IH in H' as (m & s' & g' & -> & D & H').
      exists m, s', g'. split; [done|]. split; [by constructor|done].
    + exists [], s, g. split; [done|]. split; [apply D_opt_none|done].
  - remember (length s) as n eqn:En in H. clear En.
    revert s g H. induction n as [|n IHn]; intros s g H; simpl in H.
    + exists [], s, g. split; [done|]. split; [apply D_star_nil|done].
    + match type of H with
      | context [bt fl r1 s g ?k'] =>
          assert (bt fl r1 s g k' = Some res \/ k s g = Some res) as [H'|H']
      end.
      { destruct gr; apply orelse_Some in H; tauto. }
      * apply IH in H' as (m1 & s1 & g1 & -> & D1 & H').
        destruct (length s1 <? length (m1 ++ s1)) eqn:El; [|done].
        apply IHn in H' as (m2 & s2 & g2 & -> & D2 & H').
        exists (m1 ++ m2), s2, g2. rewrite <- app_assoc.
        split; [done|]. split; [|done].
        econstructor; eauto. intros ->. simpl in El.
        apply Nat.ltb_lt in El. lia.
      * exists [], s, g. split; [done|]. split; [apply D_star_nil|done].
  - apply IH in H as (m & s' & g' & -> & D & H).
    rewrite take_app_suffix in H.
    exists m, s', (<[name := m]> g'). split; [done|]. split; [by constructor|done].
Qed.

Lemma match_at_sound fl r adv s m rest :
  match_at fl r adv s = Some (m, rest) ->
  s = m_text m ++ rest /\ Den fl r (m_text m) ∅ (m_groups m) /\
  (adv = true -> m_text m <> []).
Proof.
  unfold match_at. intros H.
  apply bt_sound in H as (t & s' & g' & -> & D & H).
  rewrite take_app_suffix in H.
  destruct (adv && (length s' =? length (t ++ s'))) eqn:E; [done|].
  injection H as <- <-. simpl. split; [done|]. split; [done|].
  intros -> ->. simpl in E. by rewrite Nat.eqb_refl in E.
Qed.

(** ** The search loop as a relation *)

(** With [2 * length s + 2] steps the loop reaches the end of the text. *)
Lemma scan_go_Scan fl r : forall fuel (adv : bool) (s : str),
  2 * length s + (if adv then 1 else 2) <= fuel ->
  Scan fl r adv s (scan_go fl r fuel adv s).
Proof.
  induction fuel as [|fuel IH]; intros adv s Hf.
  { destruct adv; lia. }
  simpl. destruct (match_at fl r adv s) as [[m rest]|] eqn:E.
  - pose proof (match_at_sound _ _ _ _ _ _ E) as (Hs & _ & Hadv).
    case_bool_decide as Hm.
    + eapply Scan_empty; eauto. apply IH.
      destruct adv; [by specialize (Hadv eq_refl)|lia].
    + eapply Scan_hit; eauto. apply IH.
      assert (length s = length (m_text m) + length rest) as Hl
        by (rewrite Hs at 1; apply length_app).
      destruct (m_text m); [done|]. simpl in Hl. destruct adv; lia.
  - destruct s as [|c s'].
    + by constructor.
    + constructor; [done|]. apply IH. simpl in Hf. destruct adv; lia.
Qed.

Lemma scan_Scan fl r s : Scan fl r false s (scan fl r s).
Proof. apply scan_go_Scan. lia. Qed.

Lemma Scan_det fl r adv s ps1 :
  Scan fl r adv s ps1 -> forall ps2, Scan fl r adv s ps2 -> ps1 = ps2.
Proof.
  induction 1 as [adv E|adv c s ps E _ IH|adv s m rest ps E Hm _ IH
                 |adv s m rest ps E Hm _ IH];
    intros ps2 H2; inversion H2; subst; try congruence.
  - f_equal. by apply IH.
  - assert (m0 = m /\ rest0 = rest) as [-> ->] by (split; congruence).
    f_equal. by apply IH.
  - assert (m0 = m /\ rest0 = rest) as [-> ->] by (split; congruence).
    f_equal. by apply IH.
Qed.

(** More fuel does not change the result. *)
Lemma scan_go_fuel fl r fuel (s : str) :
  2 * length s + 2 <= fuel -> scan_go fl r fuel false s = scan fl r s.
Proof.
  intros Hf. eapply Scan_det; [|apply scan_Scan]. by apply scan_go_Scan.
Qed.

Lemma Scan_concat fl r adv s ps :
  Scan fl r adv s ps -> concat (piece_in <$> ps) = s.
Proof.
  induction 1 as [adv E|adv c s ps E _ IH|adv s m rest ps E Hm _ IH
                 |adv s m rest ps E Hm _ IH]; csimpl.
  - done.
  - by rewrite IH.
  - apply match_at_sound in E as (-> & _). by rewrite IH.
  - by rewrite Hm, IH.
Qed.

Lemma Scan_hits_Den fl r adv s ps :
  Scan fl r adv s ps ->
  forall m, m ∈ hits ps -> Den fl r (m_text m) ∅ (m_groups m).
Proof.
  induction 1 as [adv E|adv c s ps E _ IH|adv s m rest ps E Hm _ IH
                 |adv s m rest ps E Hm _ IH]; unfold hits; csimpl; intros m' Hin.
  - by apply elem_of_nil in Hin.
  - by apply IH.
  - apply elem_of_cons in Hin as [->|Hin]; [|by apply IH].
    by apply match_at_sound in E as (_ & D & _).
  - apply elem_of_cons in Hin as [->|Hin]; [|by apply IH].
    by apply match_at_sound in E as (_ & D & _).
Qed.

(** ** Characters and literals under [(?i)] *)

Lemma lower_cases d : lower d = d \/ is_lowercase (lower d) = true.
Proof. destruct d as [[] [] [] [] [] [] [] []]; vm_compute; auto. Qed.

Lemma lit_match_si_exact c d :
  is_upper c = false -> is_lowercase c = false ->
  lit_match si_flags c d = true -> d = c.
Proof.
  intros Hu Hl H. unfold lit_match in H. simpl in H.
  apply bool_decide_eq_true in H.
  assert (lower c = c) as Hc by (unfold lower; by rewrite Hu).
  destruct (lower_cases d) as [E|E]; congruence.
Qed.

Lemma lit_match_si_tag d : lit_match si_flags "c" d = true <-> is_tag d.
Proof.
  unfold is_tag.
  destruct d as [[] [] [] [] [] [] [] []]; vm_compute; split;
    intros H; try discriminate; auto; destruct H; discriminate.
Qed.

Lemma digit_not_letter c :
  is_digit c = true -> is_upper c = false /\ is_lowercase c = false.
Proof.
  unfold is_digit, is_upper, is_lowercase. intros H.
  apply andb_true_iff in H as [H1 H2].
  apply Nat.leb_le in H1, H2.
  split; apply andb_false_iff.
  - left. apply Nat.leb_gt. lia.
  - left. apply Nat.leb_gt. lia.
Qed.

(** ** Inversion of [Den] *)

Lemma Den_lit_inv fl c m g g' :
  Den fl (Lit c) m g g' -> exists d, m = [d] /\ lit_match fl c d = true /\ g' = g.
Proof. inversion 1; subst; eauto. Qed.

Lemma Den_dot_inv fl m g g' :
  Den fl Dot m g g' -> exists d, m = [d] /\ dot_match fl d = true /\ g' = g.
Proof. inversion 1; subst; eauto. Qed.

Lemma Den_digit_inv fl m g g' :
  Den fl Digit m g g' -> exists d, m = [d] /\ is_digit d = true /\ g' = g.
Proof. inversion 1; subst; eauto. Qed.

Lemma Den_eps_inv fl m g g' : Den fl Eps m g g' -> m = [] /\ g' = g.
Proof. inversion 1; subst; eauto. Qed.

Lemma Den_cat_inv fl r1 r2 m g g' :
  Den fl (Cat r1 r2) m g g' ->
  exists m1 m2 g1, m = m1 ++ m2 /\ Den fl r1 m1 g g1 /\ Den fl r2 m2 g1 g'.
Proof. inversion 1; subst; eauto 10. Qed.

Lemma Den_opt_inv fl gr r m g g' :
  Den fl (Opt gr r) m g g' -> Den fl r m g g' \/ (m = [] /\ g' = g).
Proof. inversion 1; subst; eauto. Qed.

Lemma Den_group_inv fl name r m g g' :
  Den fl (Group name r) m g g' ->
  exists g1, Den fl r m g g1 /\ g' = <[name := m]> g1.
Proof. inversion 1; subst; eauto. Qed.

(** Repetitions of a single-character class. *)
Lemma Den_star_dot fl gr m g g' :
  Den fl (Star gr Dot) m g g' ->
  g' = g /\ Forall (fun d => dot_match fl d = true) m.
Proof.
  remember (Star gr Dot) as r eqn:Er. induction 1; try discriminate.
  - done.
  - injection Er as -> ->.
    apply Den_dot_inv in H as (d & -> & Hd & ->).
    destruct (IHDen2 eq_refl) as [-> HF]. split; [done|].
    by constructor.
Qed.

Lemma Den_star_digit fl gr m g g' :
  Den fl (Star gr Digit) m g g' ->
  g' = g /\ Forall (fun d => is_digit d = true) m.
Proof.
  remember (Star gr Digit) as r eqn:Er. induction 1; try discriminate.
  - done.
  - injection Er as -> ->.
    apply Den_digit_inv in H as (d & -> & Hd & ->).
    destruct (IHDen2 eq_refl) as [-> HF]. split; [done|].
    by constructor.
Qed.

Lemma Den_star_dot_all gr (m : str) g : Den si_flags (Star gr Dot) m g g.
Proof.
  induction m as [|d m IH]; [apply D_star_nil|].
  change (d :: m) with ([d] ++ m).
  eapply D_star_cons; [|done|exact IH]. by constructor.
Qed.

Lemma Den_plus_lazy_dot fl m g g' :
  Den fl (Plus Lazy Dot) m g g' -> g' = g /\ m <> [].
Proof.
  intros H. apply Den_cat_inv in H as (m1 & m2 & g1 & -> & H1 & H2).
  apply Den_dot_inv in H1 as (d & -> & _ & ->).
  apply Den_star_dot in H2 as [-> _]. done.
Qed.

Lemma Den_Lits_digits k m g g' :
  Forall (fun d => is_digit d = true) k ->
  Den si_flags (Lits k) m g g' -> g' = g /\ m = k.
Proof.
  intros Hk. revert m g. induction Hk as [|c k Hc _ IH]; intros m g H; simpl in H.
  - by apply Den_eps_inv in H as [-> ->].
  - apply Den_cat_inv in H as (m1 & m2 & g1 & -> & H1 & H2).
    apply Den_lit_inv in H1 as (d & -> & Hd & ->).
    apply IH in H2 as [-> ->]. split; [done|].
    apply digit_not_letter in Hc as [Hu Hl].
    by rewrite (lit_match_si_exact c d Hu Hl Hd).
Qed.

Lemma Den_Lits_refl k g : Den si_flags (Lits k) k g g.
Proof.
  induction k as [|c k IH]; simpl; [constructor|].
  change (c :: k) with ([c] ++ k). econstructor; [|exact IH].
  constructor. unfold lit_match. simpl. by apply bool_decide_eq_true.
Qed.

(** ** The shape of a cloze marker *)

(** What [clozeReg] matches, and the groups it sets: the braces, the tag
    letter in either case, the ordinal, the content and, when the hint
    group took part, the hint. *)
Lemma Den_clozeReg ord m g :
  (forall o g1 g2, Den si_flags ord o g1 g2 -> g2 = g1) ->
  Den si_flags (clozeReg ord) m ∅ g ->
  exists t o content,
    is_tag t /\ Den si_flags ord o (<["tag" := [t]]> ∅) (<["tag" := [t]]> ∅) /\
    g !! "tag" = Some [t] /\ g !! "content" = Some content /\
    ((g !! "hint" = None /\
      m = L "{{" ++ [t] ++ o ++ L "::" ++ content ++ L "}}") \/
     (exists h, g !! "hint" = Some h /\
      m = L "{{" ++ [t] ++ o ++ L "::" ++ content ++ L "::" ++ h ++ L "}}")).
Proof.
  intros Hord H. unfold clozeReg in H.
  repeat match goal with
  | H : Den _ (Cat _ _) _ _ _ |- _ =>
      let m1 := fresh "m" in let m2 := fresh "m" in let g1 := fresh "g" in
      apply Den_cat_inv in H as (m1 & m2 & g1 & -> & ? & ?)
  | H : Den _ (Lit "{") _ _ _ |- _ =>
      apply Den_lit_inv in H as (? & -> & ->%lit_match_si_exact & ->); [|done..]
  | H : Den _ (Lit "}") _ _ _ |- _ =>
      apply Den_lit_inv in H as (? & -> & ->%lit_match_si_exact & ->); [|done..]
  | H : Den _ (Lit ":") _ _ _ |- _ =>
      apply Den_lit_inv in H as (? & -> & ->%lit_match_si_exact & ->); [|done..]
  | H : Den _ (Group _ _) _ _ _ |- _ =>
      let g1 := fresh "g" in apply Den_group_inv in H as (g1 & ? & ->)
  | H : Den _ (Star _ Dot) _ _ _ |- _ => apply Den_star_dot in H as [-> _]
  | H : Den _ (Lit "c") _ _ _ |- _ =>
      let t := fresh "t" in apply Den_lit_inv in H as (t & -> & ?%lit_match_si_tag & ->)
  end.
  match goal with H : Den _ ord _ _ _ |- _ => pose proof (Hord _ _ _ H); subst end.
  match goal with H : Den _ (Opt _ _) _ _ _ |- _ => apply Den_opt_inv in H as [H|[-> ->]] end.
  - repeat match goal with
    | H : Den _ (Cat _ _) _ _ _ |- _ =>
        let m1 := fresh "m" in let m2 := fresh "m" in let g1 := fresh "g" in
        apply Den_cat_inv in H as (m1 & m2 & g1 & -> & ? & ?)
    | H : Den _ (Lit ":") _ _ _ |- _ =>
        apply Den_lit_inv in H as (? & -> & ->%lit_match_si_exact & ->); [|done..]
    | H : Den _ (Group _ _) _ _ _ |- _ =>
        let g1 := fresh "g" in apply Den_group_inv in H as (g1 & ? & ->)
    | H : Den _ (Star _ Dot) _ _ _ |- _ => apply Den_star_dot in H as [-> _]
    end.
    eexists _, _, _. split; [eassumption|]. split; [eassumption|].
    split; [by simplify_map_eq|]. split; [by simplify_map_eq|].
    right. eexists. split; [by simplify_map_eq|]. simpl. rewrite <- ?app_assoc. done.
  - eexists _, _, _. split; [eassumption|]. split; [eassumption|].
    split; [by simplify_map_eq|]. split; [by simplify_map_eq|].
    left. split; [by simplify_map_eq|]. simpl. rewrite <- ?app_assoc. done.
Qed.

Lemma lit_match_no_flags c d : lit_match no_flags c d = true -> d = c.
Proof. unfold lit_match. simpl. by intros ->%bool_decide_eq_true. Qed.

(** What the scan for ordinals matches: a lower-case tag, a run of digits
    (group 1), and at least one character of content on a single line. *)
Lemma Den_ords_reg m g :
  Den no_flags ords_reg m ∅ g ->
  exists k body,
    m = L "{{c" ++ k ++ L "::" ++ body ++ L "}}" /\
    g !! "1" = Some k /\ k <> [] /\ Forall (fun d => is_digit d = true) k /\
    body <> [] /\ Forall (fun d => d <> newline) body.
Proof.
  intros H. unfold ords_reg, Plus in H.
  repeat match goal with
  | H : Den _ (Cat _ _) _ _ _ |- _ =>
      let m1 := fresh "m" in let m2 := fresh "m" in let g1 := fresh "g" in
      apply Den_cat_inv in H as (m1 & m2 & g1 & -> & ? & ?)
  | H : Den _ (Lit _) _ _ _ |- _ =>
      apply Den_lit_inv in H as (? & -> & ->%lit_match_no_flags & ->)
  | H : Den _ (Group _ _) _ _ _ |- _ =>
      let g1 := fresh "g" in apply Den_group_inv in H as (g1 & ? & ->)
  | H : Den _ (Star _ Dot) _ _ _ |- _ => apply Den_star_dot in H as [-> ?]
  | H : Den _ (Star _ Digit) _ _ _ |- _ => apply Den_star_digit in H as [-> ?]
  | H : Den _ Dot _ _ _ |- _ => apply Den_dot_inv in H as (? & -> & ? & ->)
  | H : Den _ Digit _ _ _ |- _ => apply Den_digit_inv in H as (? & -> & ? & ->)
  end.
  lazymatch goal with
  | Hk : is_digit ?d0 = true, Hks : Forall (fun d => is_digit d = true) ?k0,
    Hb : dot_match no_flags ?b0 = true,
    Hbs : Forall (fun d => dot_match no_flags d = true) ?bs |- _ =>
      rename Hbs into HB; rename Hb into Hb1; exists (d0 :: k0), (b0 :: bs)
  end.
  assert (forall d, dot_match no_flags d = true -> d <> newline) as Hnl.
  { intros d Hd ->. done. }
  split. { simpl. rewrite <- ?app_assoc. reflexivity. }
  split; [by simplify_map_eq|]. split; [done|]. split; [by constructor|].
  split; [done|]. constructor; [by apply Hnl|].
  eapply Forall_impl; [exact HB|exact Hnl].
Qed.

Lemma Scan_hit_substring fl r adv s ps :
  Scan fl r adv s ps ->
  forall m, m ∈ hits ps -> exists pre post, s = pre ++ m_text m ++ post.
Proof.
  induction 1 as [adv E|adv c s ps E _ IH|adv s m rest ps E Hm _ IH
                 |adv s m rest ps E Hm _ IH]; unfold hits; csimpl; intros m' Hin.
  - by apply elem_of_nil in Hin.
  - destruct (IH _ Hin) as (pre & post & ->). by exists (c :: pre), post.
  - apply match_at_sound in E as (-> & _).
    apply elem_of_cons in Hin as [->|Hin]; [by exists [], rest|].
    destruct (IH _ Hin) as (pre & post & ->).
    exists (m_text m ++ pre), post. by rewrite <- app_assoc.
  - apply elem_of_cons in Hin as [->|Hin]; [|by apply IH].
    apply match_at_sound in E as (-> & _). by exists [], rest.
Qed.

(** Every ordinal handed to [set] is a non-empty run of digits that is
    followed by [::] somewhere in the text. *)
Lemma found_ords_spec s k :
  k ∈ found_ords s ->
  k <> [] /\ Forall (fun d => is_digit d = true) k /\
  exists pre post, s = pre ++ L "{{c" ++ k ++ L "::" ++ post.
Proof.
  unfold found_ords, re_findall. intros Hk.
  apply list_elem_of_fmap in Hk as (m & -> & Hm).
  pose proof (scan_Scan no_flags ords_reg s) as HS.
  pose proof (Scan_hits_Den _ _ _ _ _ HS m Hm) as HD.
  apply Den_ords_reg in HD as (k & body & Ht & Hg & Hne & Hd & _).
  unfold group. rewrite Hg. simpl. split; [done|]. split; [done|].
  destruct (Scan_hit_substring _ _ _ _ _ HS m Hm) as (pre & post & ->).
  exists pre, (body ++ L "}}" ++ post). rewrite Ht.
  by rewrite <- ?app_assoc.
Qed.

Lemma set_iter_elem `{SetOrder} l k : k ∈ set_iter l <-> k ∈ l.
Proof. rewrite set_iter_perm, elem_of_elements, elem_of_list_to_set. done. Qed.



Lemma digits_prefix_eq (k k' r r' : str) :
  Forall (fun d => is_digit d = true) k ->
  Forall (fun d => is_digit d = true) k' ->
  k ++ L "::" ++ r = k' ++ L "::" ++ r' -> k' = k.
Proof.
  intros Hk. revert k'. induction Hk as [|c k Hc _ IH]; intros k' Hk' E.
  - destruct Hk' as [|c' k' Hc' _]; [done|].
    simpl in E. injection E as <- _. done.
  - destruct Hk' as [|c' k' Hc' Hk'].
    + simpl in E. injection E as -> _. done.
    + simpl in E. injection E as -> E. f_equal. by apply IH.
Qed.

Lemma masked_marker_shape (s k : str) (m : Match) :
  Forall (fun d => is_digit d = true) k ->
  m ∈ masked_markers k s ->
  exists t content,
    is_tag t /\ group m "content" = Some content /\
    match group m "hint" with
    | None => m_text m = L "{{" ++ [t] ++ k ++ L "::" ++ content ++ L "}}"
    | Some h =>
        m_text m = L "{{" ++ [t] ++ k ++ L "::" ++ content ++ L "::" ++ h ++ L "}}"
    end.
Proof.
  intros Hk Hm. unfold masked_markers in Hm.
  pose proof (Scan_hits_Den _ _ _ _ _ (scan_Scan _ _ _) m Hm) as HD.
  apply Den_clozeReg in HD as (t & o & content & Ht & Ho & _ & Hc & HH).
  2:{ intros o g1 g2 Ho. by apply Den_Lits_digits in Ho as [-> _]. }
  apply Den_Lits_digits in Ho as [_ ->]; [|done].
  exists t, content. split; [done|]. split; [done|]. unfold group.
  destruct HH as [[-> E]|(h & -> & E)]; done.
Qed.

(** C3: in the question-style variant for an ordinal [k], every masked
    marker carries exactly the digits [k] between the tag and the first
    [::]; a marker that carries other digits [k'] is never masked, also
    when [k] is a prefix of [k'], as [1] is of [10], so the ordinal of a
    masked marker is numerically equal to [k]. *)
Theorem mask_only_exact_ordinal `{SetOrder} (s k : str) (m : Match) :
  k ∈ set_iter (found_ords s) ->
  m ∈ masked_markers k s ->
  (exists t rest, is_tag t /\ m_text m = L "{{" ++ [t] ++ k ++ L "::" ++ rest) /\
  (forall t k' rest,
     Forall (fun d => is_digit d = true) k' ->
     m_text m = L "{{" ++ [t] ++ k' ++ L "::" ++ rest ->
     k' = k /\ ord_value k' = ord_value k).
Proof.
  intros Hk Hm. apply set_iter_elem, found_ords_spec in Hk as (_ & Hd & _).
  destruct (masked_marker_shape s k m Hd Hm) as (t & content & Ht & _ & Hs).
  assert (exists rest, m_text m = L "{{" ++ [t] ++ k ++ L "::" ++ rest) as [rest E].
  { destruct (group m "hint") as [h|]; rewrite Hs; eauto. }
  split; [by eauto|]. intros t' k' rest' Hd' E'. rewrite E in E'.
  simpl in E'. injection E' as _ E'.
  by rewrite (digits_prefix_eq k k' rest rest' Hd Hd' E').
Qed.

(** ** The repetition loop has enough iterations *)

Lemma star_loop_ext {R} fl r1 gr :
  (forall s g (k1 k2 : str -> groups -> option R),
     (forall s' g', length s' <= length s -> k1 s' g' = k2 s' g') ->
     bt fl r1 s g k1 = bt fl r1 s g k2) ->
  forall n s g (k1 k2 : str -> groups -> option R),
    (forall s' g', length s' <= length s -> k1 s' g' = k2 s' g') ->
    star_loop gr (fun s' g' k' => bt fl r1 s' g' k') k1 n s g
    = star_loop gr (fun s' g' k' => bt fl r1 s' g' k') k2 n s g.
Proof.
  intros IH. induction n as [|n IHn]; intros s g k1 k2 Hk; simpl.
  - by apply Hk.
  - rewrite (Hk s g) by done.
    destruct gr; f_equal; apply IH; intros s' g' Hs';
      (destruct (length s' <? length s) eqn:E; [|done]);
      apply IHn; intros s'' g'' Hs''; apply Hk; lia.
Qed.

(** The matcher only hands suffixes of its input to the continuation. *)
Lemma bt_ext {R} fl r : forall s g (k1 k2 : str -> groups -> option R),
  (forall s' g', length s' <= length s -> k1 s' g' = k2 s' g') ->
  bt fl r s g k1 = bt fl r s g k2.
Proof.
  induction r as [c| | | |r1 IH1 r2 IH2|gr r1 IH|gr r1 IH|name r1 IH];
    intros s g k1 k2 Hk; simpl.
  - destruct s as [|d s']; [done|]. rewrite (Hk s' g) by (simpl; lia). done.
  - destruct s as [|d s']; [done|]. rewrite (Hk s' g) by (simpl; lia). done.
  - destruct s as [|d s']; [done|]. rewrite (Hk s' g) by (simpl; lia). done.
  - by apply Hk.
  - apply IH1. intros s' g' Hs'. apply IH2. intros s'' g'' Hs''. apply Hk. lia.
  - rewrite (IH s g k1 k2 Hk), (Hk s g) by done. done.
  - by apply star_loop_ext.
  - apply IH. intros s' g' Hs'. by apply Hk.
Qed.

Lemma bt_none {R} fl r : forall s g,
  bt fl r s g (fun _ _ => @None R) = None.
Proof.
  induction r as [c| | | |r1 IH1 r2 IH2|gr r1 IH|gr r1 IH|name r1 IH];
    intros s g; simpl.
  - destruct s; [done|]. by destruct (lit_match fl c a).
  - destruct s; [done|]. by destruct (dot_match fl a).
  - destruct s; [done|]. by destruct (is_digit a).
  - done.
  - etrans; [|apply (IH1 s g)]. apply bt_ext. intros s' g' _. apply IH2.
  - rewrite IH. by destruct gr.
  - generalize (length s) at 1. intros n. revert s g.
    induction n as [|n IHn]; intros s g; simpl; [done|].
    assert (bt fl r1 s g (fun s' g' =>
              if length s' <? length s
              then star_loop gr (fun s'0 g'0 k' => bt fl r1 s'0 g'0 k')
                     (fun _ _ => None) n s' g'
              else None) = @None R) as ->.
    { etrans; [|apply (IH s g)]. apply bt_ext. intros s' g' _.
      destruct (length s' <? length s); [apply IHn|done]. }
    by destruct gr.
  - apply IH.
Qed.

Lemma orelse_None_r {A} (x : option A) : orelse x None = x.
Proof. by destruct x. Qed.

(** Iterations beyond the length of the text are never used. *)
Lemma star_loop_fuel {R} fl r1 gr (k : str -> groups -> option R) :
  forall n1 n2 (s : str) g, length s <= n1 -> length s <= n2 ->
  star_loop gr (fun s' g' k' => bt fl r1 s' g' k') k n1 s g
  = star_loop gr (fun s' g' k' => bt fl r1 s' g' k') k n2 s g.
Proof.
  assert (forall n (s : str) g, length s = 0 ->
    star_loop gr (fun s' g' k' => bt fl r1 s' g' k') k n s g = k s g) as Hz.
  { intros [|n] s g Hs; simpl; [done|].
    assert (bt fl r1 s g (fun s' g' =>
              if length s' <? length s
              then star_loop gr (fun s'0 g'0 k' => bt fl r1 s'0 g'0 k') k n s' g'
              else None) = None) as ->.
    { etrans; [|apply (bt_none fl r1 s g)]. apply bt_ext. intros s' g' _.
      rewrite Hs. done. }
    destruct gr; simpl; [done|apply orelse_None_r]. }
  induction n1 as [|n1 IH]; intros n2 s g H1 H2.
  - rewrite !Hz by lia. done.
  - destruct n2 as [|n2]; [rewrite !Hz by lia; done|]. simpl.
    assert (forall n n', length s <= S n -> length s <= S n' ->
      (forall (t : str) g', length t <= n -> length t <= n' ->
         star_loop gr (fun s' g' k' => bt fl r1 s' g' k') k n t g'
         = star_loop gr (fun s' g' k' => bt fl r1 s' g' k') k n' t g') ->
      bt fl r1 s g (fun s' g' =>
        if length s' <? length s
        then star_loop gr (fun s'0 g'0 k' => bt fl r1 s'0 g'0 k') k n s' g'
        else None)
      = bt fl r1 s g (fun s' g' =>
        if length s' <? length s
        then star_loop gr (fun s'0 g'0 k' => bt fl r1 s'0 g'0 k') k n' s' g'
        else None)) as Hmore.
    { intros n n' Hn Hn' Heq. apply bt_ext. intros s' g' _.
      destruct (length s' <? length s) eqn:E; [|done].
      apply Nat.ltb_lt in E. apply Heq; lia. }
    rewrite (Hmore n1 n2 H1 H2); [done|].
    intros t g' Ht1 Ht2. by apply IH.
Qed.

(** C8 as stated fails: in [{{c1::x::}}] the hint segment is present and
    empty, and the marker is masked by [[...]], not by [[]]. *)
Lemma empty_hint_counterexample :
  exists m,
    masked_markers (L "1") (L "{{c1::x::}}") = [m] /\
    group m "hint" = Some [] /\
    qrepl m = L "[...]" /\ qrepl m <> L "[]" /\
    expand_clozes (L "{{c1::x::}}") = [L "[...]"; L "x"].
Proof.
  eexists. split; [vm_compute; reflexivity|].
  split; [vm_compute; reflexivity|].
  split; [vm_compute; reflexivity|].
  split; [vm_compute; discriminate|]. vm_compute. reflexivity.
Qed.

(** C7: [clozeReg] has [(?s)] and matches a marker whose content holds a
    line break, but the scan for ordinals has no flag: for
    [{{c1::a<newline>b}}] no ordinal is collected and the only variant is
    the fully revealed one. *)
Lemma multiline_cloze_not_found :
  let s := L "{{c1::a" ++ [newline] ++ L "b}}" in
  is_Some (match_at si_flags any_cloze false s) /\
  found_ords s = [] /\
  expand_clozes s = [L "a" ++ [newline] ++ L "b"].
Proof. split; [vm_compute; eauto|]. split; vm_compute; reflexivity. Qed.

Example expand_clozes_c1_c10 :
  expand_clozes (L "{{c1::a}} {{c10::x}}") = [L "[...] x"; L "a [...]"; L "a x"].
Proof. vm_compute. reflexivity. Qed.

Example expand_clozes_paris :
  expand_clozes (L "{{c1::Paris::capital}} is in {{c1::France}}")
  = [L "[capital] is in [...]"; L "Paris is in France"].
Proof. vm_compute. reflexivity. Qed.

(** ** Markers and the fully revealed text *)

Lemma is_cloze_shape m : is_cloze m -> cloze_shape m.
Proof.
  intros [g H]. apply Den_clozeReg in H as (t & o & content & Ht & Ho & _ & _ & HH).
  2:{ intros o g1 g2 Ho. by apply Den_plus_lazy_dot in Ho as [-> _]. }
  apply Den_plus_lazy_dot in Ho as [_ Ho].
  destruct HH as [[_ ->]|(h & _ & ->)].
  - by exists t, o, content.
  - exists t, o, (content ++ L "::" ++ h). split; [|done].
    by rewrite <- ?app_assoc.
Qed.

Lemma cloze_shape_content t o body :
  is_tag t -> o <> [] ->
  cloze_content (L "{{" ++ [t] ++ o ++ L "::" ++ body ++ L "}}") body.
Proof.
  intros Ht Ho. destruct o as [|o1 o']; [done|].
  eexists. split.
  - unfold any_cloze, clozeReg.
    change (L "{{" ++ [t] ++ (o1 :: o') ++ L "::" ++ body ++ L "}}")
      with (["{"%char] ++ ["{"%char] ++ [t] ++ ([o1] ++ o') ++ [":"%char] ++
            [":"%char] ++ body ++ [] ++ ["}"%char] ++ ["}"%char]).
    repeat first
      [ apply D_opt_none
      | apply Den_star_dot_all
      | apply D_group
      | eapply D_cat
      | apply D_lit; first [by apply lit_match_si_tag | reflexivity]
      | apply D_dot; reflexivity ].
  - by simplify_map_eq.
Qed.

Lemma cloze_shape_is_cloze m : cloze_shape m -> is_cloze m.
Proof.
  intros (t & o & body & -> & Ht & Ho).
  destruct (cloze_shape_content t o body Ht Ho) as (g & H & _). by exists g.
Qed.

(** *** The revealing pass *)

Lemma Scan_no_hits fl r adv s ps repl :
  Scan fl r adv s ps -> hits ps = [] -> concat (piece_out repl <$> ps) = s.
Proof.
  induction 1 as [adv E|adv c s ps E _ IH|adv s m rest ps E Hm _ IH
                 |adv s m rest ps E Hm _ IH]; unfold hits; csimpl; intros Hh.
  - done.
  - by rewrite IH.
  - done.
  - done.
Qed.

Lemma set_iter_nil `{SetOrder} : set_iter [] = [].
Proof.
  apply Permutation_nil_r. rewrite set_iter_perm. simpl.
  by rewrite elements_empty.
Qed.

Lemma ords_reg_is_cloze m g : Den no_flags ords_reg m ∅ g -> is_cloze m.
Proof.
  intros (k & body & -> & _ & Hk & _)%Den_ords_reg.
  apply cloze_shape_is_cloze. exists "c"%char, k, body.
  split; [done|]. split; [by left|done].
Qed.

Lemma no_hits_without_markers fl r (s : str) :
  (forall m g, Den fl r m ∅ g -> is_cloze m) ->
  (forall pre m post, s = pre ++ m ++ post -> ~ is_cloze m) ->
  hits (scan fl r s) = [].
Proof.
  intros Hr Hs. destruct (hits (scan fl r s)) as [|m ms] eqn:E; [done|].
  exfalso. pose proof (scan_Scan fl r s) as HS.
  assert (m ∈ hits (scan fl r s)) as Hm by (rewrite E; left).
  destruct (Scan_hit_substring _ _ _ _ _ HS m Hm) as (pre & post & Hsub).
  eapply Hs; [exact Hsub|]. eapply Hr. by eapply Scan_hits_Den.
Qed.

Example expand_clozes_no_clozes :
  expand_clozes (L "no clozes here") = [L "no clozes here"].
Proof. vm_compute. reflexivity. Qed.

(** ** The filter pipeline *)

Section RenderFacts.

Context {Any AVTag : Type}.
Variable field_filter : str -> str -> str -> M Any AVTag str.
Variable runFilter :
  str -> str -> str -> gmap str str -> str -> str -> M Any AVTag str.

Local Abbreviation apply_filter := (apply_filter field_filter runFilter).
Local Abbreviation apply_filters := (apply_filters field_filter runFilter).
Local Abbreviation render_node := (render_node field_filter runFilter).
Local Abbreviation apply_nodes := (apply_nodes field_filter runFilter).

Lemma apply_nodes_app front_side pre post res (ctx : TemplateRenderContext Any AVTag) :
  apply_nodes front_side (pre ++ post) res ctx
  = ('(res1, pre') ← apply_nodes front_side pre res;
     '(res2, post') ← apply_nodes front_side post res1;
     mret (res2, pre' ++ post')) ctx.
Proof.
  revert res ctx. induction pre as [|node pre IH]; intros res ctx; simpl.
  - unfold mbind, M_bind, mret, M_ret.
    destruct (apply_nodes front_side post res ctx) as [[[r l]|e] c]; done.
  - unfold mbind, M_bind, mret, M_ret in *.
    destruct (render_node front_side node ctx) as [[[t n']|e] c]; [|done].
    rewrite IH.
    destruct (apply_nodes front_side pre (res ++ t) c) as [[[r1 l1]|e] c1]; [|done].
    destruct (apply_nodes front_side post r1 c1) as [[[r2 l2]|e] c2]; done.
Qed.

(** The loop appends to what it has: its result is the text it was
    started with followed by the text of the nodes. *)
Lemma apply_nodes_acc front_side rendered res (ctx : TemplateRenderContext Any AVTag) :
  apply_nodes front_side rendered res ctx
  = ('(text, rendered') ← apply_nodes front_side rendered [];
     mret (res ++ text, rendered')) ctx.
Proof.
  revert res ctx. induction rendered as [|node rest IH]; intros res ctx; simpl.
  - unfold mbind, M_bind, mret, M_ret. by rewrite app_nil_r.
  - unfold mbind, M_bind, mret, M_ret in *.
    destruct (render_node front_side node ctx) as [[[t n']|e] c]; [|done].
    rewrite (IH (res ++ t)), (IH ([] ++ t)).
    destruct (apply_nodes front_side rest [] c) as [[[r1 l1]|e] c1]; [|done].
    by rewrite app_assoc.
Qed.

Lemma apply_custom_filters_nodes front_side pre r post :
  apply_custom_filters field_filter runFilter (pre ++ NRepl r :: post) front_side
  = apply_nodes front_side (pre ++ NRepl r :: post) [].
Proof.
  unfold apply_custom_filters.
  destruct pre as [|[s|r'] [|n pre]]; reflexivity.
Qed.

(** A replacement node anywhere in the list: the nodes before it, the
    injection of the front side, the filters of the node from left to
    right, the nodes after it. *)
Lemma apply_custom_filters_split front_side pre r post
    (ctx : TemplateRenderContext Any AVTag) :
  apply_custom_filters field_filter runFilter (pre ++ NRepl r :: post) front_side ctx
  = ('(res1, pre') ← apply_nodes front_side pre [];
     let r' := inject_front_side front_side r in
     text ← apply_filters (field_name r') (filters r') (current_text r');
     '(res2, post') ← apply_nodes front_side post [];
     mret (res1 ++ text ++ res2, pre' ++ NRepl r' :: post')) ctx.
Proof.
  rewrite apply_custom_filters_nodes, apply_nodes_app.
  unfold mbind, M_bind, mret, M_ret. simpl.
  destruct (apply_nodes front_side pre [] ctx) as [[[res1 pre']|e] c1]; [|done].
  unfold mbind, M_bind, mret, M_ret.
  destruct (apply_filters _ _ _ c1) as [[t|e] c2]; [|done].
  rewrite apply_nodes_acc. unfold mbind, M_bind, mret, M_ret.
  destruct (apply_nodes front_side post [] c2) as [[[res2 post']|e] c3]; [|done].
  by rewrite <- app_assoc.
Qed.

Lemma inject_front_side_fields front_side r :
  field_name (inject_front_side front_side r) = field_name r /\
  filters (inject_front_side front_side r) = filters r.
Proof.
  unfold inject_front_side. destruct front_side; [|done].
  by case_bool_decide.
Qed.

End RenderFacts.

(** C1: a replacement node with the filters [f1; f2] contributes the
    result of [f2] applied to the result of [f1] applied to its text: the
    second filter step starts from the text the first one returns.  The
    order matters: with handlers that append the filter name, [x] then [y]
    gives [txy] where [y] then [x] gives [tyx]. *)
Theorem filters_applied_left_to_right :
  (forall (Any AVTag : Type)
     (field_filter : str -> str -> str -> M Any AVTag str)
     (runFilter : str -> str -> str -> gmap str str -> str -> str -> M Any AVTag str)
     (pre post : list Node) (fld t f1 f2 : str) (front_side : option str)
     (ctx : TemplateRenderContext Any AVTag),
     let r := {| field_name := fld; current_text := t; filters := [f1; f2] |} in
     let r' := inject_front_side front_side r in
     apply_custom_filters field_filter runFilter (pre ++ NRepl r :: post) front_side ctx
     = ('(res1, pre') ← apply_nodes field_filter runFilter front_side pre [];
        t1 ← apply_filter field_filter runFilter fld (current_text r') f1;
        t2 ← apply_filter field_filter runFilter fld t1 f2;
        '(res2, post') ← apply_nodes field_filter runFilter front_side post [];
        mret (res1 ++ t2 ++ res2, pre' ++ NRepl r' :: post')) ctx) /\
  (exists (field_filter : str -> str -> str -> M unit unit str)
          (runFilter : str -> str -> str -> gmap str str -> str -> str -> M unit unit str),
     forall ctx : TemplateRenderContext unit unit,
       let r := {| field_name := L "F"; current_text := L "t";
                   filters := [L "x"; L "y"] |} in
       apply_custom_filters field_filter runFilter [NRepl r] None ctx
       = (Ok (L "txy", [NRepl r]), ctx) /\
       (t2 ← apply_filter field_filter runFilter (L "F") (L "t") (L "y");
        apply_filter field_filter runFilter (L "F") t2 (L "x")) ctx
       = (Ok (L "tyx"), ctx)).
Proof.
  split.
  - intros Any AVTag ff rf pre post fld t f1 f2 fs ctx r r'.
    rewrite apply_custom_filters_split.
    destruct (inject_front_side_fields fs r) as [Ef Efl].
    subst r'. simpl. rewrite Ef, Efl. subst r. simpl.
    unfold mbind, M_bind, mret, M_ret.
    destruct (apply_nodes ff rf fs pre [] ctx) as [[[res1 pre']|e] c1]; [|done].
    destruct (apply_filter ff rf fld _ f1 c1) as [[t1|e] c2]; [|done].
    destruct (apply_filter ff rf fld t1 f2 c2) as [[t2|e] c3]; done.
  - exists (fun text _ name => mret (text ++ name)),
           (fun _ arg _ _ _ _ => mret arg).
    intros ctx. split; reflexivity.
Qed.

(** C5: for a replacement node of the field [FrontSide], a supplied
    front side replaces the text of the node before its filters run, and
    the node keeps it; without a front side the filters start from the
    text the node holds. *)
Theorem front_side_injected (Any AVTag : Type)
    (field_filter : str -> str -> str -> M Any AVTag str)
    (runFilter : str -> str -> str -> gmap str str -> str -> str -> M Any AVTag str)
    (pre post : list Node) (r : TemplateReplacement) (fs : str)
    (ctx : TemplateRenderContext Any AVTag) :
  field_name r = L "FrontSide" ->
  apply_custom_filters field_filter runFilter (pre ++ NRepl r :: post) (Some fs) ctx
  = ('(res1, pre') ← apply_nodes field_filter runFilter (Some fs) pre [];
     text ← apply_filters field_filter runFilter (L "FrontSide") (filters r) fs;
     '(res2, post') ← apply_nodes field_filter runFilter (Some fs) post [];
     mret (res1 ++ text ++ res2,
           pre' ++ NRepl {| field_name := L "FrontSide"; current_text := fs;
                            filters := filters r |} :: post')) ctx
  /\
  apply_custom_filters field_filter runFilter (pre ++ NRepl r :: post) None ctx
  = ('(res1, pre') ← apply_nodes field_filter runFilter None pre [];
     text ← apply_filters field_filter runFilter (L "FrontSide") (filters r)
              (current_text r);
     '(res2, post') ← apply_nodes field_filter runFilter None post [];
     mret (res1 ++ text ++ res2, pre' ++ NRepl r :: post')) ctx.
Proof.
  intros Hf. rewrite !apply_custom_filters_split.
  unfold inject_front_side. rewrite (bool_decide_eq_true_2 _ Hf). simpl.
  by rewrite Hf.
Qed.

(** C4: when no registered handler concerns itself with a filter name and
    the legacy registry has no entry under ["fmod_" + name], the filter
    step returns the text unchanged, raises nothing and leaves the context
    as it was. *)
Theorem unregistered_filter_is_identity (Any AVTag : Type)
    (registry : list (str -> str -> str -> M Any AVTag str))
    (legacy : gmap str (list (str -> str -> gmap str str -> str -> str -> M Any AVTag str)))
    (field_name field_text filter_name : str)
    (ctx : TemplateRenderContext Any AVTag) :
  Forall (fun handler => forall text field c,
            handler text field filter_name c = (Ok text, c)) registry ->
  legacy !! (L "fmod_" ++ filter_name) = None ->
  apply_filter (field_filter_registry registry) (runFilter_registry legacy)
    field_name field_text filter_name ctx
  = (Ok field_text, ctx).
Proof.
  intros Hreg Hleg. unfold apply_filter, runFilter_registry.
  assert (field_filter_registry registry field_text field_name filter_name ctx
          = (Ok field_text, ctx)) as E.
  { induction Hreg as [|h rest Hh _ IH]; simpl; [done|].
    unfold mbind, M_bind. by rewrite Hh. }
  unfold mbind, M_bind, get_ctx. rewrite E, Hleg. done.
Qed.

(** ** [render_card] *)

Lemma lstrip_spaces s : Forall (fun c => is_space c = true) s -> lstrip s = [].
Proof. induction 1 as [|c s Hc _ IH]; simpl; [done|]. by rewrite Hc. Qed.

Lemma lstrip_nonspace s :
  (exists c, c ∈ s /\ is_space c = false) ->
  exists c rest, lstrip s = c :: rest /\ is_space c = false.
Proof.
  intros (c & Hin & Hc). induction s as [|d s IH]; [by apply elem_of_nil in Hin|].
  simpl. destruct (is_space d) eqn:Ed.
  - apply elem_of_cons in Hin as [->|Hin]; [congruence|]. by apply IH.
  - by exists d, s.
Qed.

Lemma strip_spaces s : Forall (fun c => is_space c = true) s -> strip s = [].
Proof. intros H. unfold strip. by rewrite (lstrip_spaces s H). Qed.

Lemma strip_nonspace s :
  (exists c, c ∈ s /\ is_space c = false) -> strip s <> [].
Proof.
  intros H. unfold strip.
  destruct (lstrip_nonspace s H) as (c & rest & -> & Hc).
  destruct (lstrip_nonspace (reverse (c :: rest))) as (d & rest' & -> & _).
  { exists c. split; [|done]. rewrite elem_of_reverse. left. }
  rewrite reverse_cons. by destruct (reverse rest').
Qed.

(** C9: when rendering raises a backend exception, the output that
    [render_card] hands to [card_did_render] and returns has the same
    error message as question and as answer and no AV tags; when the
    rendered question is empty or all whitespace, its question text is
    replaced by the message about the blank front with the help link. *)
Theorem render_card_fallbacks (Any AVTag : Type) (tr : str -> str) (HELP_SITE : str)
    (field_filter : str -> str -> str -> M Any AVTag str)
    (runFilter : str -> str -> str -> gmap str str -> str -> str -> M Any AVTag str)
    (card_did_render : TemplateRenderOutput AVTag -> M Any AVTag (TemplateRenderOutput AVTag))
    (col : Collection AVTag) (card : Card) (note : Note) (browser : bool)
    (fields : gmap str str) :
  fields_for_rendering col card note = Ok fields ->
  let ctx := {| _col := col; _card := card; _note := note; _fields := fields;
                _qfmt := (templates_for_card card browser).1;
                _afmt := (templates_for_card card browser).2;
                extra_state := ∅ |} in
  (forall e ctx',
     render_card_from_context field_filter runFilter ctx
       = (Raise (BackendException e), ctx') ->
     let errmsg := tr (L "Card template has a problem:") ++ L "<br>" ++ e in
     render_card tr HELP_SITE field_filter runFilter card_did_render
       col card note browser
     = (card_did_render
          {| question_text := errmsg; answer_text := errmsg;
             question_av_tags := []; answer_av_tags := [] |} ctx').1) /\
  (forall output ctx',
     render_card_from_context field_filter runFilter ctx = (Ok output, ctx') ->
     Forall (fun c => is_space c = true) (question_text output) ->
     render_card tr HELP_SITE field_filter runFilter card_did_render
       col card note browser
     = (card_did_render
          {| question_text :=
               tr (L "The front of this card is blank.") ++
               L "<a href='" ++ HELP_SITE ++ L "'>" ++ tr (L "More info") ++ L "</a>";
             answer_text := answer_text output;
             question_av_tags := question_av_tags output;
             answer_av_tags := answer_av_tags output |} ctx').1).
Proof.
  intros Hf ctx. unfold render_card. rewrite Hf.
  destruct (templates_for_card card browser) as [qfmt afmt] eqn:Et.
  subst ctx. simpl. split.
  - intros e ctx' Hr. rewrite Hr. simpl.
    pose proof (strip_nonspace (template_error_message tr e)) as Hs.
    destruct (strip (template_error_message tr e)) eqn:Es; [|done].
    exfalso. apply Hs; [|done]. exists "<"%char.
    split; [|done]. unfold template_error_message.
    rewrite !elem_of_app. right. left. left.
  - intros output ctx' Hr Hb. rewrite Hr. simpl.
    by rewrite (strip_spaces _ Hb).
Qed.

(** * Instances of the theorems on sample data *)

Lemma mask_only_exact_ordinal_witness :
  exists t rest,
    is_tag t /\ L "{{c1::a}}" = L "{{" ++ [t] ++ L "1" ++ L "::" ++ rest.
Proof.
  refine (proj1 (mask_only_exact_ordinal (L "{{c1::a}} {{c10::x}}") (L "1")
    {| m_text := L "{{c1::a}}";
       m_groups := <["content" := L "a"]> (<["tag" := L "c"]> ∅) |} _ _)).
  - vm_compute. left.
  - vm_compute. left.
Defined.

Lemma unregistered_filter_is_identity_witness :
  apply_filter (field_filter_registry [shout_handler])
    (runFilter_registry {[ L "fmod_shout" := [] ]})
    (L "Front") (L "text") (L "other") sample_ctx
  = (Ok (L "text"), sample_ctx).
Proof.
  apply (unregistered_filter_is_identity unit unit [shout_handler]
           {[ L "fmod_shout" := [] ]} (L "Front") (L "text") (L "other") sample_ctx).
  - constructor; [|constructor]. intros text field c. reflexivity.
  - vm_compute. reflexivity.
Defined.

Lemma front_side_injected_witness :
  apply_custom_filters no_field_filter no_runFilter
    [NRepl {| field_name := L "FrontSide"; current_text := L "old";
              filters := [L "f"] |}] (Some (L "Q")) sample_ctx
  = (Ok (L "Q", [NRepl {| field_name := L "FrontSide"; current_text := L "Q";
                          filters := [L "f"] |}]), sample_ctx).
Proof.
  etrans.
  - apply (proj1 (front_side_injected unit unit no_field_filter no_runFilter [] []
      {| field_name := L "FrontSide"; current_text := L "old"; filters := [L "f"] |}
      (L "Q") sample_ctx eq_refl)).
  - reflexivity.
Defined.

Lemma fields_for_rendering_ok {AVTag} (col : Collection AVTag) card note name :
  card_template card !! L "name" = Some name ->
  exists fields, fields_for_rendering col card note = Ok fields.
Proof. intros H. unfold fields_for_rendering. rewrite H. eauto. Qed.

Lemma render_card_fallbacks_witness :
  render_card (fun s => s) (L "https://help") no_field_filter no_runFilter
    (fun output => mret output)
    (sample_col (Raise (BackendException (L "no such field")))) sample_card
    sample_note false
  = Ok {| question_text := L "Card template has a problem:<br>no such field";
          answer_text := L "Card template has a problem:<br>no such field";
          question_av_tags := []; answer_av_tags := [] |}.
Proof.
  destruct (fields_for_rendering_ok
              (sample_col (Raise (BackendException (L "no such field"))))
              sample_card sample_note (L "Card 1")) as [fields Hf].
  { apply lookup_insert_eq. }
  etrans.
  - eapply (proj1 (render_card_fallbacks unit unit (fun s => s) (L "https://help")
      no_field_filter no_runFilter (fun output => mret output)
      (sample_col (Raise (BackendException (L "no such field"))))
      sample_card sample_note false fields Hf)).
    reflexivity.
  - reflexivity.
Defined.

(** * Further properties of the filter pipeline *)

(** The early return for a fully rendered template gives what the loop
    would give. *)
Lemma apply_custom_filters_loop {Any AVTag : Type}
    (field_filter : str -> str -> str -> M Any AVTag str)
    (runFilter : str -> str -> str -> gmap str str -> str -> str -> M Any AVTag str)
    rendered front_side (ctx : TemplateRenderContext Any AVTag) :
  apply_custom_filters field_filter runFilter rendered front_side ctx
  = apply_nodes field_filter runFilter front_side rendered [] ctx.
Proof. destruct rendered as [|[s|r] [|n rest]]; reflexivity. Qed.

(** X1: filtering a node list that is the concatenation of two lists is
    filtering the first list, then the second one in the state the first
    left, and joining the two texts and the two node lists; when the
    first part raises, the second part is not run. *)
Theorem apply_custom_filters_app {Any AVTag : Type}
    (field_filter : str -> str -> str -> M Any AVTag str)
    (runFilter : str -> str -> str -> gmap str str -> str -> str -> M Any AVTag str)
    (a b : list Node) (front_side : option str)
    (ctx : TemplateRenderContext Any AVTag) :
  apply_custom_filters field_filter runFilter (a ++ b) front_side ctx
  = ('(text_a, a') ← apply_custom_filters field_filter runFilter a front_side;
     '(text_b, b') ← apply_custom_filters field_filter runFilter b front_side;
     mret (text_a ++ text_b, a' ++ b')) ctx.
Proof.
  rewrite apply_custom_filters_loop, apply_nodes_app.
  unfold mbind, M_bind, mret, M_ret.
  rewrite (apply_custom_filters_loop _ _ a).
  destruct (apply_nodes _ _ front_side a [] ctx) as [[[ta a']|e] c1]; [|done].
  rewrite apply_nodes_acc, (apply_custom_filters_loop _ _ b).
  unfold mbind, M_bind, mret, M_ret.
  by destruct (apply_nodes _ _ front_side b [] c1) as [[[tb b']|e] c2].
Qed.

(** X2: when no node has a filter left, no hook is consulted and the
    state is unchanged: the text is the concatenation of the texts of the
    nodes, a [FrontSide] node giving the supplied front side. *)
Theorem apply_custom_filters_no_pending {Any AVTag : Type}
    (field_filter : str -> str -> str -> M Any AVTag str)
    (runFilter : str -> str -> str -> gmap str str -> str -> str -> M Any AVTag str)
    (rendered : list Node) (front_side : option str)
    (ctx : TemplateRenderContext Any AVTag) :
  Forall no_pending_filters rendered ->
  apply_custom_filters field_filter runFilter rendered front_side ctx
  = (Ok (concat (node_text front_side <$> rendered),
         inject_node front_side <$> rendered), ctx).
Proof.
  intros H. rewrite apply_custom_filters_loop.
  assert (forall res,
    apply_nodes field_filter runFilter front_side rendered res ctx
    = (Ok (res ++ concat (node_text front_side <$> rendered),
           inject_node front_side <$> rendered), ctx)) as E; [|apply (E [])].
  induction H as [|node rest Hn _ IH]; intros res; simpl.
  - by rewrite app_nil_r.
  - unfold mbind, M_bind, mret, M_ret.
    destruct node as [s|r]; simpl.
    + rewrite IH. by rewrite <- app_assoc.
    + destruct (inject_front_side_fields front_side r) as [_ Ef].
      simpl in Hn. rewrite Ef, Hn. simpl. unfold mret, M_ret.
      rewrite IH. by rewrite <- app_assoc.
Qed.

(** X3: the node list returned by [apply_custom_filters] is the input
    list with the front side written into the [FrontSide] nodes; the
    result of the filters goes into the text only, not into the nodes, and
    without a front side the nodes come back unchanged. *)
Theorem apply_custom_filters_nodes_after {Any AVTag : Type}
    (field_filter : str -> str -> str -> M Any AVTag str)
    (runFilter : str -> str -> str -> gmap str str -> str -> str -> M Any AVTag str)
    (rendered rendered' : list Node) (front_side : option str) (text : str)
    (ctx ctx' : TemplateRenderContext Any AVTag) :
  apply_custom_filters field_filter runFilter rendered front_side ctx
    = (Ok (text, rendered'), ctx') ->
  rendered' = inject_node front_side <$> rendered /\
  (front_side = None -> rendered' = rendered).
Proof.
  rewrite apply_custom_filters_loop. intros H.
  assert (rendered' = inject_node front_side <$> rendered) as ->.
  { revert H. generalize (@nil ascii). revert rendered' text ctx ctx'.
    induction rendered as [|node rest IH]; intros rendered' text ctx ctx' res H;
      simpl in H.
    - unfold mret, M_ret in H. by injection H as _ <- _.
    - unfold mbind, M_bind, mret, M_ret in H.
      destruct (render_node _ _ front_side node ctx) as [[[t n']|e] c1] eqn:En;
        [|done].
      destruct (apply_nodes _ _ front_side rest (res ++ t) c1)
        as [[[t2 rest']|e] c2] eqn:Er; [|done].
      injection H as _ <- _. csimpl. f_equal; [|by eapply IH].
      destruct node as [s|r]; simpl in En.
      + unfold mret, M_ret in En. by injection En as _ <- _.
      + unfold mbind, M_bind, mret, M_ret in En.
        destruct (apply_filters _ _ _ _ _ ctx) as [[t'|e] c']; [|done].
        by injection En as _ <- _. }
  split; [done|]. intros ->. clear H.
  induction rendered as [|[s|r] rest IH]; csimpl; by rewrite ?IH.
Qed.

(** X4: when a filter of a node raises, [apply_custom_filters] raises
    the same exception, in the state the filter left; the nodes after it
    are not looked at. *)
Theorem apply_custom_filters_raises {Any AVTag : Type}
    (field_filter : str -> str -> str -> M Any AVTag str)
    (runFilter : str -> str -> str -> gmap str str -> str -> str -> M Any AVTag str)
    (pre post pre' : list Node) (r : TemplateReplacement)
    (front_side : option str) (text : str) (e : exn)
    (ctx c1 c2 : TemplateRenderContext Any AVTag) :
  apply_custom_filters field_filter runFilter pre front_side ctx
    = (Ok (text, pre'), c1) ->
  apply_filters field_filter runFilter (field_name r) (filters r)
    (current_text (inject_front_side front_side r)) c1 = (Raise e, c2) ->
  apply_custom_filters field_filter runFilter (pre ++ NRepl r :: post) front_side ctx
    = (Raise e, c2).
Proof.
  intros Hpre Hr. rewrite apply_custom_filters_split.
  rewrite apply_custom_filters_loop in Hpre.
  unfold mbind, M_bind. rewrite Hpre.
  destruct (inject_front_side_fields front_side r) as [-> ->].
  by rewrite Hr.
Qed.

(** X5: the filters of one node are chained: running the filters
    [filters1 ++ filters2] is running [filters1] and then [filters2] on
    the text and in the state that [filters1] left. *)
Theorem apply_filters_app {Any AVTag : Type}
    (field_filter : str -> str -> str -> M Any AVTag str)
    (runFilter : str -> str -> str -> gmap str str -> str -> str -> M Any AVTag str)
    (field_name : str) (filters1 filters2 : list str) (field_text : str)
    (ctx : TemplateRenderContext Any AVTag) :
  apply_filters field_filter runFilter field_name (filters1 ++ filters2) field_text ctx
  = (text ← apply_filters field_filter runFilter field_name filters1 field_text;
     apply_filters field_filter runFilter field_name filters2 text) ctx.
Proof.
  revert field_text ctx. induction filters1 as [|f rest IH]; intros t ctx; simpl.
  - done.
  - unfold mbind, M_bind in *.
    destruct (apply_filter _ _ field_name t f ctx) as [[t1|e] c1]; [|done].
    apply IH.
Qed.

(** * Further properties of [render_card_from_context] and [render_card] *)

Lemma spaces_or_nonspace (s : str) :
  Forall (fun c => is_space c = true) s \/
  exists c, c ∈ s /\ is_space c = false.
Proof.
  induction s as [|d s [IH|(c & Hin & Hc)]].
  - by left.
  - destruct (is_space d) eqn:Ed.
    + left. by constructor.
    + right. exists d. split; [left|done].
  - right. exists c. split; [by right|done].
Qed.

(** A text that [strip] does not empty holds a character that is no
    whitespace, and conversely. *)
Lemma strip_nonempty_iff s :
  strip s <> [] <-> exists c, c ∈ s /\ is_space c = false.
Proof.
  split; [|apply strip_nonspace].
  intros H. destruct (spaces_or_nonspace s) as [Hall|Hn]; [|done].
  by apply strip_spaces in Hall.
Qed.

(** What [render_card] does once the fields are there, by the result of
    [render_card_from_context]. *)
Lemma render_card_unfold {Any AVTag : Type} (tr : str -> str) (HELP_SITE : str)
    (field_filter : str -> str -> str -> M Any AVTag str)
    (runFilter : str -> str -> str -> gmap str str -> str -> str -> M Any AVTag str)
    (card_did_render : TemplateRenderOutput AVTag -> M Any AVTag (TemplateRenderOutput AVTag))
    (col : Collection AVTag) (card : Card) (note : Note) (browser : bool)
    (fields : gmap str str) r ctx' :
  fields_for_rendering col card note = Ok fields ->
  render_card_from_context field_filter runFilter
    (initial_context col card note browser fields) = (r, ctx') ->
  render_card tr HELP_SITE field_filter runFilter card_did_render
    col card note browser
  = match r with
    | Raise (OtherException e) => Raise (OtherException e)
    | Raise (BackendException e) =>
        (card_did_render
           {| question_text := template_error_message tr e;
              answer_text := template_error_message tr e;
              question_av_tags := []; answer_av_tags := [] |} ctx').1
    | Ok output =>
        (card_did_render
           match strip (question_text output) with
           | [] => {| question_text := blank_front_message tr HELP_SITE;
                      answer_text := answer_text output;
                      question_av_tags := question_av_tags output;
                      answer_av_tags := answer_av_tags output |}
           | _ => output
           end ctx').1
    end.
Proof.
  intros Hf Hr. unfold render_card, initial_context in *. rewrite Hf.
  destruct (templates_for_card card browser) as [qfmt afmt]. simpl in Hr.
  rewrite Hr. destruct r as [output|[e|e]]; simpl; [done| |done].
  pose proof (strip_nonspace (template_error_message tr e)) as Hs.
  destruct (strip (template_error_message tr e)); [|done].
  exfalso. apply Hs; [|done]. exists "<"%char. split; [|done].
  unfold template_error_message. rewrite !elem_of_app. right. left. left.
Qed.

(** X6: when the backend returns nodes without pending filters, the
    question is the concatenation of the question nodes and the answer is
    the concatenation of the answer nodes with the question text, after
    the extraction of its AV tags, in place of [FrontSide]; the filter
    hooks play no part and the state is unchanged. *)
Theorem render_card_from_context_no_pending {Any AVTag : Type}
    (field_filter : str -> str -> str -> M Any AVTag str)
    (runFilter : str -> str -> str -> gmap str str -> str -> str -> M Any AVTag str)
    (ctx : TemplateRenderContext Any AVTag) (qnodes anodes : list Node) :
  backend_render_card (_col ctx) (_qfmt ctx) (_afmt ctx) (_fields ctx)
    (card_ord (_card ctx)) = Ok (qnodes, anodes) ->
  Forall no_pending_filters qnodes -> Forall no_pending_filters anodes ->
  render_card_from_context field_filter runFilter ctx
  = ('(qtext, q_avtags) ←
       lift (backend_extract_av_tags (_col ctx)
               (concat (node_text None <$> qnodes)) true);
     '(atext, a_avtags) ←
       lift (backend_extract_av_tags (_col ctx)
               (concat (node_text (Some qtext) <$> anodes)) false);
     mret {| question_text := qtext; answer_text := atext;
             question_av_tags := q_avtags; answer_av_tags := a_avtags |}) ctx.
Proof.
  intros Hb Hq Ha. unfold render_card_from_context.
  unfold mbind, M_bind, get_ctx, lift, mret, M_ret. rewrite Hb.
  rewrite (apply_custom_filters_no_pending _ _ qnodes None ctx Hq).
  destruct (backend_extract_av_tags _ _ true) as [[qtext q_av]|e]; [|done].
  rewrite (apply_custom_filters_no_pending _ _ anodes (Some qtext) ctx Ha).
  by destruct (backend_extract_av_tags _ _ false) as [[atext a_av]|e].
Qed.

(** X7: when the backend refuses the templates with a backend exception,
    [render_card] does not raise: the output handed to [card_did_render],
    in the context that [render_card] built, carries the error message as
    question and as answer, and no AV tags. *)
Theorem render_card_template_error {Any AVTag : Type} (tr : str -> str) (HELP_SITE : str)
    (field_filter : str -> str -> str -> M Any AVTag str)
    (runFilter : str -> str -> str -> gmap str str -> str -> str -> M Any AVTag str)
    (card_did_render : TemplateRenderOutput AVTag -> M Any AVTag (TemplateRenderOutput AVTag))
    (col : Collection AVTag) (card : Card) (note : Note) (browser : bool)
    (fields : gmap str str) (e : str) :
  fields_for_rendering col card note = Ok fields ->
  backend_render_card col (templates_for_card card browser).1
    (templates_for_card card browser).2 fields (card_ord card)
    = Raise (BackendException e) ->
  render_card tr HELP_SITE field_filter runFilter card_did_render
    col card note browser
  = (card_did_render
       {| question_text := tr (L "Card template has a problem:") ++ L "<br>" ++ e;
          answer_text := tr (L "Card template has a problem:") ++ L "<br>" ++ e;
          question_av_tags := []; answer_av_tags := [] |}
       (initial_context col card note browser fields)).1.
Proof.
  intros Hf Hb.
  rewrite (render_card_unfold tr HELP_SITE field_filter runFilter card_did_render
             col card note browser fields (Raise (BackendException e))
             (initial_context col card note browser fields) Hf); [done|].
  unfold render_card_from_context, mbind, M_bind, get_ctx, lift. simpl.
  by rewrite Hb.
Qed.

(** X8: an exception that is not a backend exception is not caught:
    [render_card] raises it, and [card_did_render] is not run. *)
Theorem render_card_propagates {Any AVTag : Type} (tr : str -> str) (HELP_SITE : str)
    (field_filter : str -> str -> str -> M Any AVTag str)
    (runFilter : str -> str -> str -> gmap str str -> str -> str -> M Any AVTag str)
    (card_did_render : TemplateRenderOutput AVTag -> M Any AVTag (TemplateRenderOutput AVTag))
    (col : Collection AVTag) (card : Card) (note : Note) (browser : bool)
    (fields : gmap str str) (e : str) ctx' :
  fields_for_rendering col card note = Ok fields ->
  render_card_from_context field_filter runFilter
    (initial_context col card note browser fields)
    = (Raise (OtherException e), ctx') ->
  render_card tr HELP_SITE field_filter runFilter card_did_render
    col card note browser
  = Raise (OtherException e).
Proof.
  intros Hf Hr.
  by rewrite (render_card_unfold tr HELP_SITE field_filter runFilter card_did_render
                col card note browser fields _ _ Hf Hr).
Qed.

(** X9: an output whose question holds a character that is not white
    space is handed to [card_did_render] as it is. *)
Theorem render_card_keeps_question {Any AVTag : Type} (tr : str -> str) (HELP_SITE : str)
    (field_filter : str -> str -> str -> M Any AVTag str)
    (runFilter : str -> str -> str -> gmap str str -> str -> str -> M Any AVTag str)
    (card_did_render : TemplateRenderOutput AVTag -> M Any AVTag (TemplateRenderOutput AVTag))
    (col : Collection AVTag) (card : Card) (note : Note) (browser : bool)
    (fields : gmap str str) (output : TemplateRenderOutput AVTag) ctx' :
  fields_for_rendering col card note = Ok fields ->
  render_card_from_context field_filter runFilter
    (initial_context col card note browser fields) = (Ok output, ctx') ->
  (exists c, c ∈ question_text output /\ is_space c = false) ->
  render_card tr HELP_SITE field_filter runFilter card_did_render
    col card note browser
  = (card_did_render output ctx').1.
Proof.
  intros Hf Hr Hq.
  rewrite (render_card_unfold tr HELP_SITE field_filter runFilter card_did_render
             col card note browser fields _ _ Hf Hr).
  apply strip_nonempty_iff in Hq. by destruct (strip (question_text output)).
Qed.

(** X10: unless an exception passes through, the output that
    [render_card] hands to [card_did_render] has a question with a
    character that is not white space: the rendered question, the error
    message or the message about the blank front. *)
Theorem render_card_question_not_blank {Any AVTag : Type} (tr : str -> str) (HELP_SITE : str)
    (field_filter : str -> str -> str -> M Any AVTag str)
    (runFilter : str -> str -> str -> gmap str str -> str -> str -> M Any AVTag str)
    (card_did_render : TemplateRenderOutput AVTag -> M Any AVTag (TemplateRenderOutput AVTag))
    (col : Collection AVTag) (card : Card) (note : Note) (browser : bool)
    (fields : gmap str str) r ctx' :
  fields_for_rendering col card note = Ok fields ->
  render_card_from_context field_filter runFilter
    (initial_context col card note browser fields) = (r, ctx') ->
  (forall e, r <> Raise (OtherException e)) ->
  exists output,
    render_card tr HELP_SITE field_filter runFilter card_did_render
      col card note browser
    = (card_did_render output ctx').1 /\
    exists c, c ∈ question_text output /\ is_space c = false.
Proof.
  intros Hf Hr Hne.
  rewrite (render_card_unfold tr HELP_SITE field_filter runFilter card_did_render
             col card note browser fields _ _ Hf Hr).
  assert (forall (a b : str), exists c, c ∈ a ++ L "<" ++ b /\ is_space c = false)
    as Hlt.
  { intros a b. exists "<"%char. split; [|done].
    rewrite !elem_of_app. right. left. left. }
  destruct r as [output|[e|e]].
  - destruct (strip (question_text output)) eqn:Es.
    + eexists. split; [done|]. simpl. unfold blank_front_message.
      apply (Hlt _ (L "a href='" ++ HELP_SITE ++ L "'>" ++ tr (L "More info") ++ L "</a>")).
    + eexists. split; [done|]. apply strip_nonempty_iff. by rewrite Es.
  - eexists. split; [done|]. simpl. unfold template_error_message.
    apply (Hlt _ (L "br>" ++ e)).
  - by destruct (Hne e).
Qed.

(** * Properties of [fields_for_rendering] *)

Lemma split_colons_cons c s' cur :
  split_colons (c :: s') cur
  = match s' with
    | d :: s'' =>
        if bool_decide (c = ":"%char /\ d = ":"%char)
        then reverse cur :: split_colons s'' []
        else split_colons s' (c :: cur)
    | [] => split_colons [] (c :: cur)
    end.
Proof.
  destruct (decide (c = ":"%char)) as [->|Hc].
  - destruct s' as [|d s'']; [done|].
    destruct (decide (d = ":"%char)) as [->|Hd].
    + by rewrite bool_decide_eq_true_2.
    + rewrite bool_decide_eq_false_2 by tauto.
      destruct d as [[] [] [] [] [] [] [] []]; try reflexivity. done.
  - assert (split_colons (c :: s') cur = split_colons s' (c :: cur)) as ->.
    { destruct c as [[] [] [] [] [] [] [] []]; try reflexivity.
      by destruct Hc. }
    destruct s' as [|d s'']; [done|].
    by rewrite bool_decide_eq_false_2 by tauto.
Qed.

Lemma has_sep_snoc (x : str) c :
  has_sep (x ++ [c]) -> has_sep x \/ (c = ":"%char /\ exists y, x = y ++ [":"%char]).
Proof.
  intros (a & b & E). destruct b as [|d b _] using rev_ind.
  - right. change (a ++ L "::" ++ []) with (a ++ [":"%char; ":"%char]) in E.
    change [":"%char; ":"%char] with ([":"%char] ++ [":"%char]) in E.
    rewrite app_assoc in E. apply app_inj_2 in E as [-> E]; [|done].
    injection E as ->. eauto.
  - left. rewrite !app_assoc in E. apply app_inj_2 in E as [-> _]; [|done].
    exists a, b. by rewrite <- !app_assoc.
Qed.

(** The parts [split_colons] returns, seen from the last one: it holds no
    separator, the text ends with it, and what comes before it is empty or
    ends with the separator. *)
Lemma split_colons_last : forall n (s cur : str),
  length s <= n ->
  ~ has_sep (reverse cur) ->
  (forall cur' s', cur = ":"%char :: cur' -> s <> ":"%char :: s') ->
  exists init lst pre,
    split_colons s cur = init ++ [lst] /\ ~ has_sep lst /\
    reverse cur ++ s = pre ++ lst /\
    (pre = [] \/ exists p, pre = p ++ L "::").
Proof.
  induction n as [|n IH]; intros s cur Hn Hcur Hcol.
  - destruct s; [|simpl in Hn; lia]. simpl.
    exists [], (reverse cur), []. split_and!; [done|done|by rewrite app_nil_r|by left].
  - destruct s as [|c s'].
    { simpl. exists [], (reverse cur), [].
      split_and!; [done|done|by rewrite app_nil_r|by left]. }
    rewrite split_colons_cons.
    assert (~ (c = ":"%char /\ exists d s'', s' = d :: s'' /\ d = ":"%char) ->
      exists init lst pre,
        split_colons s' (c :: cur) = init ++ [lst] /\ ~ has_sep lst /\
        reverse cur ++ c :: s' = pre ++ lst /\
        (pre = [] \/ exists p, pre = p ++ L "::")) as Hstep.
    { intros Hno.
      destruct (IH s' (c :: cur)) as (init & lst & pre & E & Hl & Hp & Hpre).
      - simpl in Hn. lia.
      - rewrite reverse_cons. intros [H|[-> (y & Hy)]]%has_sep_snoc; [done|].
        apply (Hcol (reverse y) s'); [|done].
        rewrite <- (reverse_involutive cur), Hy, reverse_app. done.
      - intros cur' s'' Hc ->. injection Hc as -> _. apply Hno. eauto.
      - exists init, lst, pre. split_and!; [done|done| |done].
        rewrite <- Hp, reverse_cons, <- app_assoc. done. }
    destruct s' as [|d s''].
    { apply Hstep. intros (_ & d & s'' & ? & _). done. }
    case_bool_decide as Hcd.
    + destruct Hcd as [-> ->].
      destruct (IH s'' []) as (init & lst & pre & E & Hl & Hp & Hpre).
      * simpl in Hn. lia.
      * intros (a & b & E). by destruct a.
      * done.
      * exists (reverse cur :: init), lst, (reverse cur ++ L "::" ++ pre).
        split_and!; [by rewrite E|done| |].
        -- simpl in Hp. rewrite <- !app_assoc, <- Hp. done.
        -- right. destruct Hpre as [->|(p & ->)].
           ++ exists (reverse cur). by rewrite app_nil_r.
           ++ exists (reverse cur ++ L "::" ++ p). by rewrite <- !app_assoc.
    + apply Hstep. intros (-> & d' & s3 & E & ->). injection E as -> _. tauto.
Qed.

Lemma lookup_fold_insert (items : list (str * str)) (k : str) :
  forall m : gmap str str,
  fold_left (fun d kv => <[kv.1 := kv.2]> d) items m !! k
  = match last (filter (fun kv => kv.1 = k) items) with
    | Some kv => Some kv.2
    | None => m !! k
    end.
Proof.
  induction items as [|kv rest IH]; intros m; simpl; [done|].
  rewrite IH, filter_cons. case_decide as Hk.
  - rewrite last_cons. destruct (last (filter _ rest)); [done|].
    by rewrite <- Hk, lookup_insert_eq.
  - destruct (last (filter _ rest)); [done|]. by rewrite lookup_insert_ne.
Qed.

(** X11: the special fields have the values computed from the card, the
    note and the deck, also when the note has a field of the same name:
    [Tags] is the stripped tag string, [Type] the name of the note type,
    [Deck] the deck name, [Card] the name of the template, [CardFlag] is
    empty for flag 0 and [flag<n>] otherwise, and [c<ord+1>] is [1]. *)
Theorem fields_for_rendering_special (AVTag : Type) (col : Collection AVTag)
    (card : Card) (note : Note) (fields : gmap str str) :
  fields_for_rendering col card note = Ok fields ->
  fields !! L "Tags" = Some (strip (note_stringTags note)) /\
  fields !! L "Type" = Some (card_note_type_name card) /\
  fields !! L "Deck" = Some (decks_name col (card_did card)) /\
  fields !! L "Card" = card_template card !! L "name" /\
  fields !! L "CardFlag"
    = Some (if card_userFlag card =? 0 then []
            else L "flag" ++ decimal (card_userFlag card)) /\
  fields !! (L "c" ++ decimal (card_ord card + 1)) = Some (L "1").
Proof.
  unfold fields_for_rendering.
  destruct (card_template card !! L "name") as [name|]; [|done].
  intros [= <-].
  split_and!.
  all: repeat first
    [ apply lookup_insert_eq
    | rewrite lookup_insert_ne by (intros Hk; simpl in Hk; discriminate) ].
Qed.

(** X12: every other key has the value the note gives it, the last one
    when the note lists the key more than once, and is absent when the
    note does not have it. *)
Theorem fields_for_rendering_note_field (AVTag : Type) (col : Collection AVTag)
    (card : Card) (note : Note) (fields : gmap str str) (k : str) :
  fields_for_rendering col card note = Ok fields ->
  k ∉ special_fields (card_ord card) ->
  fields !! k = note_field note k.
Proof.
  unfold fields_for_rendering, special_fields.
  destruct (card_template card !! L "name") as [name|]; [|done].
  intros [= <-] Hk.
  rewrite !not_elem_of_cons in Hk.
  destruct Hk as (? & ? & ? & ? & ? & ? & ? & _).
  rewrite !lookup_insert_ne by done.
  rewrite lookup_fold_insert. unfold note_field.
  by destruct (last _).
Qed.

(** X13: [Subdeck] is the part of the deck name after its last [::]:
    it holds no [::], and the deck name is [Subdeck] itself or ends with
    [::] followed by [Subdeck]. *)
Theorem fields_for_rendering_subdeck (AVTag : Type) (col : Collection AVTag)
    (card : Card) (note : Note) (fields : gmap str str) :
  fields_for_rendering col card note = Ok fields ->
  exists subdeck pre,
    fields !! L "Subdeck" = Some subdeck /\
    ~ has_sep subdeck /\
    decks_name col (card_did card) = pre ++ subdeck /\
    (pre = [] \/ exists p, pre = p ++ L "::").
Proof.
  unfold fields_for_rendering.
  destruct (card_template card !! L "name") as [name|]; [|done].
  intros [= <-].
  destruct (split_colons_last (length (decks_name col (card_did card)))
              (decks_name col (card_did card)) [])
    as (init & lst & pre & E & Hl & Hp & Hpre); [done| |done|].
  { intros (a & b & E). by destruct a. }
  exists lst, pre. split_and!; [|done|done|done].
  rewrite E, last_snoc. simpl.
  repeat first
    [ apply lookup_insert_eq
    | rewrite lookup_insert_ne by (intros Hk; simpl in Hk; discriminate) ].
Qed.

(** * Further properties of [expand_clozes] *)

Lemma nil_of_no_elem {A} (l : list A) : (forall x, x ∉ l) -> l = [].
Proof. destruct l as [|x l]; [done|]. intros H. destruct (H x). left. Qed.

(** X14: a text without [}}], for example with a marker that is not
    closed, has no cloze: [expand_clozes] returns the text alone and
    unchanged. *)
Theorem expand_clozes_unclosed `{SetOrder} (s : str) :
  (~ exists a b, s = a ++ L "}}" ++ b) ->
  expand_clozes s = [s].
Proof.
  intros Hs.
  assert (forall pre m post, s = pre ++ m ++ post -> ~ is_cloze m) as Hno.
  { intros pre m post E (t & o & body & -> & _)%is_cloze_shape. apply Hs.
    exists (pre ++ L "{{" ++ [t] ++ o ++ L "::" ++ body), post.
    rewrite E. by rewrite <- ?app_assoc. }
  unfold expand_clozes, found_ords, re_findall.
  rewrite (no_hits_without_markers no_flags ords_reg s); [|apply ords_reg_is_cloze|done].
  simpl. rewrite set_iter_nil. simpl. f_equal.
  unfold reveal_all, re_sub. eapply Scan_no_hits; [apply scan_Scan|].
  apply no_hits_without_markers; [|done]. intros m g D. by exists g.
Qed.

(** X15: the scan for ordinals is case sensitive where the
    substitution is not: a text without [{{c] in lower case yields no
    question, only the fully revealed text, also when it holds markers
    written with [C]. *)
Theorem expand_clozes_lower_case_scan `{SetOrder} (s : str) :
  (~ exists a b, s = a ++ L "{{c" ++ b) ->
  found_ords s = [] /\ expand_clozes s = [reveal_all s].
Proof.
  intros Hs.
  assert (found_ords s = []) as E.
  { apply nil_of_no_elem. intros k (_ & _ & pre & post & Hk)%found_ords_spec.
    apply Hs. exists pre, (k ++ L "::" ++ post). by rewrite Hk. }
  split; [done|]. unfold expand_clozes. rewrite E, set_iter_nil. done.
Qed.

(** ** Texts whose markers are not nested *)

Lemma scan_skip fl r (t rest : str) :
  (forall t1 t2, t = t1 ++ t2 -> t2 <> [] ->
     match_at fl r false (t2 ++ rest) = None) ->
  scan fl r (t ++ rest) = (Text <$> t) ++ scan fl r rest.
Proof.
  intros H. eapply Scan_det; [apply scan_Scan|].
  induction t as [|c t IH]; simpl; [apply scan_Scan|].
  apply Scan_text.
  - by apply (H [] (c :: t)).
  - apply IH. intros t1 t2 -> Ht2. by apply (H (c :: t1) t2).
Qed.

Lemma scan_hit fl r (s rest : str) m :
  match_at fl r false s = Some (m, rest) -> m_text m <> [] ->
  scan fl r s = Hit m :: scan fl r rest.
Proof.
  intros E Hm. eapply Scan_det; [apply scan_Scan|].
  eapply Scan_hit; [done..|apply scan_Scan].
Qed.

Lemma piece_out_text repl (t : str) : concat (piece_out repl <$> (Text <$> t)) = t.
Proof. induction t as [|c t IH]; csimpl; [done|]. by rewrite IH. Qed.

Lemma hits_text (t : str) ps : hits ((Text <$> t) ++ ps) = hits ps.
Proof. induction t as [|c t IH]; csimpl; done. Qed.

Lemma re_sub_skip fl r repl (t rest : str) :
  (forall t1 t2, t = t1 ++ t2 -> t2 <> [] ->
     match_at fl r false (t2 ++ rest) = None) ->
  re_sub fl r repl (t ++ rest) = t ++ re_sub fl r repl rest.
Proof.
  intros H. unfold re_sub. rewrite (scan_skip _ _ _ _ H).
  by rewrite fmap_app, concat_app, piece_out_text.
Qed.

Lemma re_sub_hit fl r repl (s rest : str) m :
  match_at fl r false s = Some (m, rest) -> m_text m <> [] ->
  re_sub fl r repl s = repl m ++ re_sub fl r repl rest.
Proof. intros E Hm. unfold re_sub. by rewrite (scan_hit _ _ _ _ _ E Hm). Qed.

Lemma lit_match_brace fl c : lit_match fl "{" c = true -> c = "{"%char.
Proof.
  unfold lit_match. destruct (ignorecase fl).
  - destruct c as [[] [] [] [] [] [] [] []]; vm_compute; intros; done.
  - by intros ->%bool_decide_eq_true.
Qed.

(** The patterns of the file start with two opening braces: no match
    starts at another character, or at a single brace. *)
Lemma braces_head_fail fl r' adv c (s : str) :
  c <> "{"%char ->
  match_at fl (Cat (Lit "{") (Cat (Lit "{") r')) adv (c :: s) = None.
Proof.
  intros Hc. unfold match_at. simpl.
  destruct (lit_match fl "{" c) eqn:E; [|done].
  by apply lit_match_brace in E.
Qed.

Lemma braces_second_fail fl r' adv c (s : str) :
  c <> "{"%char ->
  match_at fl (Cat (Lit "{") (Cat (Lit "{") r')) adv ("{"%char :: c :: s) = None.
Proof.
  intros Hc. unfold match_at. simpl.
  destruct (lit_match fl "{" "{"); [|done].
  destruct (lit_match fl "{" c) eqn:E; [|done].
  by apply lit_match_brace in E.
Qed.

(** In a text without opening brace no match starts. *)
Lemma text_no_match fl r' (t rest : str) :
  "{"%char ∉ t ->
  forall t1 t2, t = t1 ++ t2 -> t2 <> [] ->
    match_at fl (Cat (Lit "{") (Cat (Lit "{") r')) false (t2 ++ rest) = None.
Proof.
  intros Ht t1 t2 -> Ht2. destruct t2 as [|c t2]; [done|].
  apply braces_head_fail. intros ->. apply Ht.
  apply elem_of_app. right. left.
Qed.

(** In a marker whose parts hold no opening brace, no match starts after
    the first brace. *)
Lemma marker_tail_no_match fl r' tag (body rest : str) :
  tag <> "{"%char -> "{"%char ∉ body ->
  forall t1 t2, L "{{" ++ [tag] ++ body = t1 ++ t2 -> t2 <> [] -> t1 <> [] ->
    match_at fl (Cat (Lit "{") (Cat (Lit "{") r')) false (t2 ++ rest) = None.
Proof.
  intros Htag Hb t1 t2 E Ht2 Ht1.
  destruct t1 as [|c1 t1]; [done|]. simpl in E. injection E as _ E.
  destruct t1 as [|c2 t1]; simpl in E.
  - subst t2. by apply braces_second_fail.
  - injection E as _ E. destruct t2 as [|c t2]; [done|].
    apply braces_head_fail. intros ->.
    assert ("{"%char ∈ tag :: body) as Hin.
    { rewrite E. apply elem_of_app. right. left. }
    apply elem_of_cons in Hin as [Hin|Hin]; [by destruct Htag|done].
Qed.

Lemma star_lazy_dot_first {R} fl (k : str -> groups -> option R) g x :
  forall (a b : str) n, length (a ++ b) <= n ->
  Forall (fun d => dot_match fl d = true) a ->
  (forall a1 a2, a = a1 ++ a2 -> a2 <> [] -> k (a2 ++ b) g = None) ->
  k b g = Some x ->
  star_loop Lazy (fun s' g' k' => bt fl Dot s' g' k') k n (a ++ b) g = Some x.
Proof.
  induction a as [|d a IH]; intros b n Hn Ha Hfail Hk.
  - destruct n; simpl; [done|]. by rewrite Hk.
  - destruct n as [|n]; [simpl in Hn; lia|]. simpl.
    pose proof (Hfail [] (d :: a) eq_refl ltac:(done)) as H0. simpl in H0.
    rewrite H0. simpl.
    apply Forall_cons in Ha as [-> Ha].
    destruct (length (a ++ b) <? S (length (a ++ b))) eqn:E.
    + apply IH; [simpl in Hn; lia|done| |done].
      intros a1 a2 -> Ha2. by apply (Hfail (d :: a1) a2).
    + apply Nat.ltb_ge in E. lia.
Qed.

Lemma star_greedy_digit_all {R} fl (k : str -> groups -> option R) g x :
  forall (a b : str) n, length (a ++ b) <= n ->
  Forall (fun d => is_digit d = true) a ->
  (forall d b', b = d :: b' -> is_digit d = false) ->
  k b g = Some x ->
  star_loop Greedy (fun s' g' k' => bt fl Digit s' g' k') k n (a ++ b) g = Some x.
Proof.
  induction a as [|d a IH]; intros b n Hn Ha Hb Hk.
  - destruct n; simpl; [done|]. rewrite Hk.
    destruct b as [|d b']; [done|]. by rewrite (Hb d b').
  - destruct n as [|n]; [simpl in Hn; lia|]. simpl.
    apply Forall_cons in Ha as [-> Ha].
    destruct (length (a ++ b) <? S (length (a ++ b))) eqn:E.
    + rewrite IH; [done|simpl in Hn; lia|done..].
    + apply Nat.ltb_ge in E. lia.
Qed.

Lemma raw_clz_app tag ord content hint (rest : str) :
  raw (Clz tag ord content hint) ++ rest
  = "{"%char :: "{"%char :: tag ::
      ord ++ ":"%char :: ":"%char ::
        content ++ hint_part hint ++ "}"%char :: "}"%char :: rest.
Proof.
  unfold raw. simpl. rewrite <- !app_assoc. simpl. by rewrite <- !app_assoc.
Qed.

Lemma lit_si_colon d : lit_match si_flags ":" d = true -> d = ":"%char.
Proof. by apply lit_match_si_exact. Qed.

Lemma lit_si_close d : lit_match si_flags "}" d = true -> d = "}"%char.
Proof. by apply lit_match_si_exact. Qed.

Lemma lit_si_colon_not c (s : str) :
  ":"%char ∉ c :: s -> lit_match si_flags ":" c = false.
Proof.
  intros H. destruct (lit_match si_flags ":" c) eqn:E; [|done].
  apply lit_si_colon in E as ->. destruct H. left.
Qed.

Lemma lit_si_close_not c (s : str) :
  "}"%char ∉ c :: s -> lit_match si_flags "}" c = false.
Proof.
  intros H. destruct (lit_match si_flags "}" c) eqn:E; [|done].
  apply lit_si_close in E as ->. destruct H. left.
Qed.

Lemma lit_si_colon_digit d : is_digit d = true -> lit_match si_flags ":" d = false.
Proof.
  intros H. destruct (lit_match si_flags ":" d) eqn:E; [|done].
  by apply lit_si_colon in E as ->.
Qed.

Lemma dot_match_si (s : str) : Forall (fun d => dot_match si_flags d = true) s.
Proof. by apply Forall_forall. Qed.

Lemma not_elem_suffix {A} (c : A) (a1 a2 : list A) : c ∉ a1 ++ a2 -> c ∉ a2.
Proof. intros H Hin. apply H, elem_of_app. by right. Qed.

#[local] Opaque Nat.sub.

Lemma clozeReg_bt_marker {R} ordre tag ord content hint (rest : str)
    (k : str -> groups -> option R) x :
  ord_ok ordre ord -> wf_seg (Clz tag ord content hint) ->
  k rest (marker_groups tag content hint) = Some x ->
  bt si_flags (clozeReg ordre) (raw (Clz tag ord content hint) ++ rest) ∅ k
  = Some x.
Proof.
  intros Hord (Htag & Ho & Hd & Hc & Hc1 & Hc2 & Hc3 & Hh1 & Hh2) Hk.
  rewrite raw_clz_app. unfold clozeReg. simpl.
  apply lit_match_si_tag in Htag. rewrite Htag.
  apply Hord.
  2:{ intros d s'' Hdig. simpl. by rewrite (lit_si_colon_digit d). }
  simpl.
  apply (star_lazy_dot_first si_flags); [done|apply dot_match_si| |].
  - intros a1 [|c a2] -> Ha2; [done|]. simpl.
    rewrite (lit_si_colon_not c a2) by (by apply not_elem_suffix in Hc3).
    rewrite (lit_si_close_not c a2) by (by apply not_elem_suffix in Hc2).
    done.
  - rewrite (take_app_suffix content).
    match goal with
    | |- context [take (S (length ?T) - length ?T) (tag :: ?T)] =>
        change (take (S (length T) - length T) (tag :: T))
          with (take (length ([tag] ++ T) - length T) ([tag] ++ T));
        rewrite (take_app_suffix [tag] T)
    end.
    destruct hint as [h|]; simpl.
    + rewrite orelse_None_r.
      apply (star_lazy_dot_first si_flags); [done|apply dot_match_si| |].
      * intros a1 [|c a2] -> Ha2; [done|]. simpl.
        rewrite (lit_si_close_not c a2); [done|].
        apply (not_elem_suffix _ (L "::" ++ a1)). by rewrite <- app_assoc.
      * simpl. rewrite (take_app_suffix h).
        match goal with
        | |- context [take ?n (":"%char :: ?T)] =>
            replace (take n (":"%char :: T)) with (L "::" ++ h)
              by (symmetry;
                  apply (take_app_suffix (L "::" ++ h)
                           ("}"%char :: "}"%char :: rest)))
        end.
        exact Hk.
    + exact Hk.
Qed.

Lemma clozeReg_match_marker ordre tag ord content hint (rest : str) :
  ord_ok ordre ord -> wf_seg (Clz tag ord content hint) ->
  match_at si_flags (clozeReg ordre) false (raw (Clz tag ord content hint) ++ rest)
  = Some ({| m_text := raw (Clz tag ord content hint);
             m_groups := marker_groups tag content hint |}, rest).
Proof.
  intros Hord Hwf. unfold match_at. apply clozeReg_bt_marker; [done..|].
  simpl andb. cbv iota. by rewrite take_app_suffix.
Qed.

Lemma Lits_ord_ok ord : ord_ok (Lits ord) ord.
Proof.
  intros R k' s' g x Hk _. induction ord as [|c ord IH]; simpl; [done|].
  unfold lit_match. simpl. by rewrite bool_decide_eq_true_2.
Qed.

Lemma plus_lazy_dot_ord_ok ord :
  ord <> [] -> Forall (fun d => is_digit d = true) ord ->
  ord_ok (Plus Lazy Dot) ord.
Proof.
  intros Ho Hd R k' s' g x Hk Hfail. destruct ord as [|d ord]; [done|].
  apply Forall_cons in Hd as [_ Hd]. simpl.
  apply (star_lazy_dot_first si_flags); [done|apply dot_match_si| |done].
  intros a1 [|c a2] -> Ha2; [done|]. simpl. apply Hfail.
  apply Forall_app in Hd as [_ Hd]. by apply Forall_cons in Hd as [Hd _].
Qed.

Lemma digit_not_brace (s : str) :
  Forall (fun d => is_digit d = true) s -> "{"%char ∉ s.
Proof.
  intros H Hin. rewrite Forall_forall in H. by apply H in Hin.
Qed.

(** After the tag, a well-formed marker holds no opening brace. *)
Lemma marker_body_no_brace tag ord content hint :
  wf_seg (Clz tag ord content hint) ->
  tag <> "{"%char /\
  exists body, raw (Clz tag ord content hint) = L "{{" ++ [tag] ++ body /\
               "{"%char ∉ body.
Proof.
  intros (Htag & Ho & Hd & Hc & Hc1 & Hc2 & Hc3 & Hh1 & Hh2). split.
  { by destruct Htag as [-> | ->]. }
  eexists. split; [reflexivity|].
  rewrite !not_elem_of_app. split_and!; try done.
  - by apply digit_not_brace.
  - by intros [|[|?%elem_of_nil]%elem_of_cons]%elem_of_cons.
  - by intros [|[|?%elem_of_nil]%elem_of_cons]%elem_of_cons.
Qed.

Lemma raw_clz_nonempty tag ord content hint : raw (Clz tag ord content hint) <> [].
Proof. done. Qed.

(** A marker with another ordinal is left alone by the masking pass. *)
Lemma ord_cloze_mismatch k tag ord content hint (rest : str) :
  Forall (fun d => is_digit d = true) k ->
  wf_seg (Clz tag ord content hint) -> ord <> k ->
  match_at si_flags (ord_cloze k) false (raw (Clz tag ord content hint) ++ rest)
  = None.
Proof.
  intros Hk (Htag & Ho & Hd & _) Hne.
  destruct (match_at _ _ _ _) as [[m rest']|] eqn:E; [exfalso|done].
  apply match_at_sound in E as (E & D & _).
  apply Den_clozeReg in D as (t & o & c & _ & Hoo & _ & _ & HH).
  2:{ intros o g1 g2 Hoo. by apply Den_Lits_digits in Hoo as [-> _]. }
  apply Den_Lits_digits in Hoo as [_ ->]; [|done].
  rewrite raw_clz_app in E.
  destruct HH as [[_ Hm]|(h & _ & Hm)]; rewrite Hm in E; simpl in E;
    injection E as _ E;
    rewrite <- !app_assoc in E;
    apply (digits_prefix_eq ord k) in E; done.
Qed.

Lemma app_eq_prefix (a b c d : str) :
  a ++ b = c ++ d -> (exists y, a = c ++ y) \/ (exists y, y <> [] /\ c = a ++ y).
Proof.
  revert c. induction a as [|x a IH]; intros c E.
  - destruct c as [|z c]; [left; by exists []|right; by exists (z :: c)].
  - destruct c as [|z c]; [left; by exists (x :: a)|].
    simpl in E. injection E as -> E.
    destruct (IH c E) as [(y & ->)|(y & Hy & ->)]; [left|right]; eauto.
Qed.

(** A marker in upper case, or with a line break, is not seen by the scan
    for ordinals. *)
Lemma ords_reg_unscanned tag ord content hint (rest : str) :
  wf_seg (Clz tag ord content hint) ->
  scanned_ord (Clz tag ord content hint) = None ->
  match_at no_flags ords_reg false (raw (Clz tag ord content hint) ++ rest)
  = None.
Proof.
  intros (Htag & Ho & Hd & Hc & Hc1 & Hc2 & Hc3 & Hh1 & Hh2) Hs.
  destruct (match_at _ _ _ _) as [[m rest']|] eqn:E; [exfalso|done].
  apply match_at_sound in E as (E & D & _).
  apply Den_ords_reg in D as (k & body & Hm & _ & _ & Hk & _ & Hb).
  rewrite Hm, raw_clz_app in E. simpl in E. injection E as -> E.
  rewrite <- !app_assoc in E.
  pose proof (digits_prefix_eq _ _ _ _ Hd Hk E) as ->.
  apply app_inv_head in E. simpl in E. injection E as E.
  simpl in Hs. case_bool_decide as Hn; [done|]. apply Hn. split; [done|].
  rewrite <- (app_assoc body), (app_assoc content) in E.
  assert ("}"%char ∉ content ++ hint_part hint) as Hclose.
  { by rewrite not_elem_of_app. }
  assert (forall y, body = (content ++ hint_part hint) ++ y ->
            newline ∉ content ++ hint_part hint) as Hsub.
  { intros y Hy Hin. rewrite Forall_forall in Hb. apply (Hb newline); [|done].
    rewrite Hy. apply elem_of_app. by left. }
  apply app_eq_prefix in E as H'.
  destruct H' as [(y & Hy)|(y & Hy & Hy')]; [|by apply (Hsub y)].
  destruct y as [|c y]; [apply (Hsub []); by rewrite app_nil_r in *|].
  rewrite Hy, <- app_assoc in E. apply app_inv_head in E.
  simpl in E. injection E as -> _.
  destruct Hclose. rewrite Hy. apply elem_of_app. right. left.
Qed.

Lemma dot_match_no_newline (s : str) :
  newline ∉ s -> Forall (fun d => dot_match no_flags d = true) s.
Proof.
  intros H. apply Forall_forall. intros d Hd. unfold dot_match. simpl.
  rewrite bool_decide_eq_false_2; [done|]. by intros ->.
Qed.

Lemma lit_no_close_not c (s : str) :
  "}"%char ∉ c :: s -> lit_match no_flags "}" c = false.
Proof.
  intros H. destruct (lit_match no_flags "}" c) eqn:E; [|done].
  apply lit_match_no_flags in E as ->. destruct H. left.
Qed.

Lemma ords_reg_bt_scanned {R} ord content hint (rest : str)
    (k : str -> groups -> option R) x :
  wf_seg (Clz "c" ord content hint) ->
  newline ∉ content ++ hint_part hint ->
  k rest (<["1" := ord]> ∅) = Some x ->
  bt no_flags ords_reg (raw (Clz "c" ord content hint) ++ rest) ∅ k = Some x.
Proof.
  intros (Htag & Ho & Hd & Hc & Hc1 & Hc2 & Hc3 & Hh1 & Hh2) Hn Hk.
  rewrite raw_clz_app. unfold ords_reg.
  destruct ord as [|d ord]; [done|]. apply Forall_cons in Hd as [Hd1 Hd].
  destruct content as [|c content]; [done|].
  simpl. rewrite Hd1.
  apply (star_greedy_digit_all no_flags); [done|done| |].
  { by intros d' b' [= <- _]. }
  simpl.
  apply dot_match_no_newline in Hn. simpl in Hn.
  apply Forall_cons in Hn as [-> Hn].
  rewrite app_assoc.
  apply (star_lazy_dot_first no_flags); [done|done| |].
  - intros a1 [|c' a2] E Ha2; [done|]. simpl.
    rewrite (lit_no_close_not c' a2); [done|].
    apply (not_elem_suffix _ a1). rewrite <- E.
    rewrite not_elem_of_app. split; [|done].
    intros Hin. apply Hc2. by right.
  - simpl.
    match goal with
    | |- context [take ?n (d :: ?T)] =>
        replace (take n (d :: T)) with (d :: ord); [done|]
    end.
    symmetry.
    apply (take_app_suffix (d :: ord)
             (":"%char :: ":"%char :: c :: (content ++ hint_part hint) ++
              "}"%char :: "}"%char :: rest)).
Qed.

(** A marker in lower case on one line is found with its ordinal. *)
Lemma ords_reg_scanned tag ord content hint (rest : str) :
  wf_seg (Clz tag ord content hint) ->
  scanned_ord (Clz tag ord content hint) = Some ord ->
  match_at no_flags ords_reg false (raw (Clz tag ord content hint) ++ rest)
  = Some ({| m_text := raw (Clz tag ord content hint);
             m_groups := <["1" := ord]> ∅ |}, rest).
Proof.
  intros Hwf Hs.
  simpl in Hs. case_bool_decide as Hn; [|done]. destruct Hn as [-> Hn].
  unfold match_at. apply ords_reg_bt_scanned; [done..|].
  simpl andb. cbv iota. by rewrite take_app_suffix.
Qed.

#[local] Transparent Nat.sub.

Lemma marker_skip fl r' tag ord content hint (rest : str) :
  wf_seg (Clz tag ord content hint) ->
  match_at fl (Cat (Lit "{") (Cat (Lit "{") r')) false
    (raw (Clz tag ord content hint) ++ rest) = None ->
  forall t1 t2, raw (Clz tag ord content hint) = t1 ++ t2 -> t2 <> [] ->
    match_at fl (Cat (Lit "{") (Cat (Lit "{") r')) false (t2 ++ rest) = None.
Proof.
  intros Hwf Hm t1 t2 E Ht2.
  destruct t1 as [|c t1]; [simpl in E; by subst t2|].
  apply marker_body_no_brace in Hwf as (Htag & body & Hb & Hbody).
  rewrite Hb in E. by apply (marker_tail_no_match _ _ tag body rest Htag Hbody _ _ E).
Qed.

Lemma arepl_marker t tag content hint :
  arepl {| m_text := t; m_groups := marker_groups tag content hint |} = content.
Proof. unfold arepl, group. destruct hint; by simplify_map_eq. Qed.

Lemma qrepl_marker t tag content hint :
  qrepl {| m_text := t; m_groups := marker_groups tag content hint |}
  = hint_mask hint.
Proof. unfold qrepl, group. destruct hint; by simplify_map_eq. Qed.

Lemma reveal_all_flat segs :
  Forall wf_seg segs -> reveal_all (text_of segs) = concat (revealed <$> segs).
Proof.
  unfold text_of.
  induction 1 as [|sg segs Hsg _ IH]; csimpl; [done|].
  unfold reveal_all in *. destruct sg as [t|tag ord content hint]; simpl revealed.
  - rewrite re_sub_skip; [by rewrite IH|]. by apply text_no_match.
  - destruct Hsg as (Htag & Ho & Hd & Hrest) eqn:Hwf.
    erewrite re_sub_hit;
      [|apply clozeReg_match_marker; [by apply plus_lazy_dot_ord_ok|done]|done].
    by rewrite arepl_marker, IH.
Qed.

Lemma hint_mask_no_brace hint :
  "{"%char ∉ hint_part hint -> "{"%char ∉ hint_mask hint.
Proof.
  destruct hint as [[|c h]|]; simpl; intros H.
  - by intros [|[|[|[|[|?%elem_of_nil]%elem_of_cons]%elem_of_cons]%elem_of_cons]%elem_of_cons]%elem_of_cons.
  - change ("{"%char ∉ L "[" ++ (c :: h) ++ L "]").
    change ("{"%char ∉ L "::" ++ (c :: h)) in H.
    rewrite not_elem_of_app in H. destruct H as [_ H].
    rewrite !not_elem_of_app. split_and!; [|done|];
      by intros [|?%elem_of_nil]%elem_of_cons.
  - by intros [|[|[|[|[|?%elem_of_nil]%elem_of_cons]%elem_of_cons]%elem_of_cons]%elem_of_cons]%elem_of_cons.
Qed.

Lemma mask_seg_wf k sg : wf_seg sg -> wf_seg (mask_seg k sg).
Proof.
  destruct sg as [t|tag ord content hint]; [done|]. intros Hwf. simpl.
  case_bool_decide; [|done]. simpl. apply hint_mask_no_brace. apply Hwf.
Qed.

Lemma revealed_mask_seg k sg : revealed (mask_seg k sg) = question k sg.
Proof.
  destruct sg as [t|tag ord content hint]; [done|]. simpl.
  by case_bool_decide.
Qed.

Lemma mask_ord_flat k segs :
  Forall (fun d => is_digit d = true) k -> Forall wf_seg segs ->
  mask_ord k (text_of segs) = text_of (mask_seg k <$> segs).
Proof.
  unfold text_of. intros Hk.
  induction 1 as [|sg segs Hsg _ IH]; csimpl; [done|].
  unfold mask_ord in *. destruct sg as [t|tag ord content hint].
  - rewrite re_sub_skip; [by rewrite IH|]. by apply text_no_match.
  - simpl mask_seg. case_bool_decide as E.
    + subst k. erewrite re_sub_hit;
        [|apply clozeReg_match_marker; [apply Lits_ord_ok|done]|done].
      by rewrite qrepl_marker, IH.
    + rewrite re_sub_skip; [by rewrite IH|].
      apply marker_skip; [done|]. by apply ord_cloze_mismatch.
Qed.

Lemma question_variant_flat k segs :
  Forall (fun d => is_digit d = true) k -> Forall wf_seg segs ->
  question_variant (text_of segs) k = concat (question k <$> segs).
Proof.
  intros Hk Hwf. unfold question_variant.
  rewrite mask_ord_flat by done. rewrite reveal_all_flat.
  - rewrite <- list_fmap_compose. f_equal. apply list_fmap_ext.
    intros i sg _. apply revealed_mask_seg.
  - apply Forall_fmap. eapply Forall_impl; [exact Hwf|].
    intros sg. apply mask_seg_wf.
Qed.

Lemma found_ords_flat segs :
  Forall wf_seg segs -> found_ords (text_of segs) = omap scanned_ord segs.
Proof.
  unfold text_of, found_ords, re_findall.
  induction 1 as [|sg segs Hsg _ IH]; [done|].
  change (omap scanned_ord (sg :: segs))
    with (match scanned_ord sg with
          | Some o => o :: omap scanned_ord segs
          | None => omap scanned_ord segs
          end).
  change (concat (raw <$> sg :: segs)) with (raw sg ++ concat (raw <$> segs)).
  destruct sg as [t|tag ord content hint].
  - rewrite scan_skip, hits_text; [exact IH|]. by apply text_no_match.
  - destruct (scanned_ord (Clz tag ord content hint)) as [o|] eqn:Hs.
    + assert (o = ord) as ->.
      { simpl in Hs. by case_bool_decide; simplify_eq. }
      erewrite scan_hit; [|by apply ords_reg_scanned|done].
      csimpl. by rewrite IH.
    + rewrite scan_skip, hits_text; [exact IH|].
      apply marker_skip; [done|]. by apply ords_reg_unscanned.
Qed.

Lemma scanned_ord_digits segs k :
  Forall wf_seg segs -> k ∈ omap scanned_ord segs ->
  Forall (fun d => is_digit d = true) k.
Proof.
  intros Hwf (sg & Hin & Hs)%list_elem_of_omap.
  rewrite Forall_forall in Hwf. apply Hwf in Hin.
  destruct sg as [t|tag ord content hint]; [done|].
  simpl in Hs. case_bool_decide; [|done]. injection Hs as <-. apply Hin.
Qed.

(** X16: on a text made of plain parts and of markers that are not
    nested, [expand_clozes] returns one question per ordinal of a marker
    written with a lower-case [c] on one line, in the order of the set,
    and then the fully revealed text.  In the question for an ordinal the
    markers of that ordinal, in either case, show their hint in brackets,
    or [[...]] without a hint or with an empty one, and every other marker
    shows its content; the plain parts are kept. *)
Theorem expand_clozes_flat `{SetOrder} segs :
  Forall wf_seg segs ->
  expand_clozes (text_of segs)
  = ((fun k => concat (question k <$> segs))
       <$> set_iter (omap scanned_ord segs))
    ++ [concat (revealed <$> segs)].
Proof.
  intros Hwf. unfold expand_clozes.
  rewrite found_ords_flat, reveal_all_flat by done. f_equal.
  apply Forall_fmap_ext, Forall_forall. intros k Hk.
  apply (proj1 (set_iter_elem _ _)) in Hk.
  apply question_variant_flat; [|done]. by apply (scanned_ord_digits segs).
Qed.

(** * [render_card] on a template without a name *)

(** X17: a card whose template has no [name] entry cannot be rendered:
    [render_card] raises the exception of the failed lookup, whatever the
    note, the collection and the hooks are, and hands no output to
    [card_did_render]. *)
Theorem render_card_missing_name {Any AVTag : Type} (tr : str -> str) (HELP_SITE : str)
    (field_filter : str -> str -> str -> M Any AVTag str)
    (runFilter : str -> str -> str -> gmap str str -> str -> str -> M Any AVTag str)
    (card_did_render : TemplateRenderOutput AVTag -> M Any AVTag (TemplateRenderOutput AVTag))
    (col : Collection AVTag) (card : Card) (note : Note) (browser : bool) :
  card_template card !! L "name" = None ->
  fields_for_rendering col card note = Raise (OtherException (L "KeyError: 'name'")) /\
  render_card tr HELP_SITE field_filter runFilter card_did_render
    col card note browser
  = Raise (OtherException (L "KeyError: 'name'")).
Proof.
  intros H. unfold render_card, fields_for_rendering. by rewrite H.
Qed.

(** * The patterns read as scanners *)

(** ** Prefixes and first occurrences *)

Lemma starts_app (p s : str) : starts p (p ++ s) = true.
Proof. unfold starts. by rewrite take_app_length, bool_decide_eq_true_2. Qed.

Lemma starts_true (p s : str) : starts p s = true -> s = p ++ drop (length p) s.
Proof.
  unfold starts. intros H%bool_decide_eq_true.
  rewrite <- H at 1. by rewrite take_drop.
Qed.

Lemma starts_false (p s : str) : starts p s = false -> forall r, s <> p ++ r.
Proof. intros H r ->. by rewrite starts_app in H. Qed.

Lemma upto_eq (p s : str) :
  upto p s
  = if starts p s then Some ([], drop (length p) s)
    else match s with
         | [] => None
         | c :: s' => '(a, rest) ← upto p s'; Some (c :: a, rest)
         end.
Proof. by destruct s. Qed.

Lemma body_at_eq (s : str) :
  body_at s
  = if starts (L "}}") s then Some ([], None, drop 2 s)
    else if starts (L "::") s then
      '(hint, rest) ← upto (L "}}") (drop 2 s); Some ([], Some hint, rest)
    else match s with
         | [] => None
         | c :: s' =>
             '(content, hint, rest) ← body_at s'; Some (c :: content, hint, rest)
         end.
Proof. by destruct s. Qed.

Lemma upto_Some (p s a b : str) :
  upto p s = Some (a, b) ->
  s = a ++ p ++ b /\
  forall a1 a2, a = a1 ++ a2 -> a2 <> [] -> starts p (a2 ++ p ++ b) = false.
Proof.
  revert a b. induction s as [|c s IH]; intros a b; rewrite upto_eq.
  - destruct (starts p []) eqn:E; [|done]. intros [= <- <-].
    split; [by apply starts_true in E|].
    by intros a1 a2 [_ ->]%eq_sym%app_eq_nil.
  - destruct (starts p (c :: s)) eqn:E.
    + intros [= <- <-]. split; [by apply starts_true in E|].
      by intros a1 a2 [_ ->]%eq_sym%app_eq_nil.
    + destruct (upto p s) as [[a' b']|] eqn:Eu; [|done]. simpl.
      intros [= <- <-]. destruct (IH a' b' eq_refl) as [-> Hmin].
      split; [done|]. intros [|d a1] a2 Ha Ha2; simpl in Ha.
      * by subst a2.
      * injection Ha as -> ->. by eapply Hmin.
Qed.

Lemma upto_None (p s : str) : upto p s = None -> forall a b, s <> a ++ p ++ b.
Proof.
  induction s as [|c s IH]; rewrite upto_eq.
  - destruct (starts p []) eqn:E; [done|]. intros _ a b Hs.
    symmetry in Hs. apply app_eq_nil in Hs as [-> Hs].
    rewrite <- Hs, starts_app in E. done.
  - destruct (starts p (c :: s)) eqn:E; [done|].
    destruct (upto p s) as [[a' b']|] eqn:Eu; [done|]. intros _ [|d a] b Hs.
    + simpl in Hs. by rewrite Hs, starts_app in E.
    + simpl in Hs. injection Hs as _ Hs. by eapply IH.
Qed.



Lemma starts_cons2 x y (s : str) :
  starts [x; y] s = true <-> exists r, s = x :: y :: r.
Proof.
  split.
  - intros ->%starts_true. eauto.
  - intros [r ->]. apply (starts_app [x; y]).
Qed.

Lemma body_at_None (s : str) : body_at s = None -> upto (L "}}") s = None.
Proof.
  induction s as [|c s IH]; [intros _; by vm_compute|].
  rewrite body_at_eq, (upto_eq _ (c :: s)).
  destruct (starts (L "}}") (c :: s)) eqn:E1; [done|].
  destruct (starts (L "::") (c :: s)) eqn:E2.
  - apply starts_true in E2. simpl in E2. injection E2 as -> E2.
    destruct s as [|d s]; [done|]. simpl in E2. injection E2 as ->.
    change (drop 2 (":"%char :: ":"%char :: s)) with s.
    destruct (upto (L "}}") s) as [[]|] eqn:Eu; [done|]. intros _.
    rewrite (upto_eq _ (":"%char :: s)).
    assert (starts (L "}}") (":"%char :: s) = false) as -> by done.
    by rewrite Eu.
  - destruct (body_at s) as [[[]]|]; [done|]. intros _. by rewrite IH.
Qed.

Lemma body_at_Some (s c : str) h rest :
  body_at s = Some (c, h, rest) ->
  s = c ++ hint_part h ++ L "}}" ++ rest /\
  (forall c1 c2, c = c1 ++ c2 -> c2 <> [] ->
     starts (L "}}") (c2 ++ hint_part h ++ L "}}" ++ rest) = false /\
     starts (L "::") (c2 ++ hint_part h ++ L "}}" ++ rest) = false) /\
  (forall h', h = Some h' -> forall h1 h2, h' = h1 ++ h2 -> h2 <> [] ->
     starts (L "}}") (h2 ++ L "}}" ++ rest) = false).
Proof.
  revert c h rest. induction s as [|d s IH]; intros c h rest;
    [by vm_compute|]. rewrite body_at_eq.
  destruct (starts (L "}}") (d :: s)) eqn:E1.
  { intros [= <- <- <-]. apply starts_true in E1. split; [done|].
    split; [|done]. by intros c1 c2 [_ ->]%eq_sym%app_eq_nil. }
  destruct (starts (L "::") (d :: s)) eqn:E2.
  { apply starts_true in E2.
    destruct (upto (L "}}") (drop 2 (d :: s))) as [[h' r']|] eqn:Eu; [|done].
    simpl. intros [= <- <- <-]. apply upto_Some in Eu as [Eu Hmin].
    split.
    { rewrite E2 at 1. change (length (L "::")) with 2. rewrite Eu. simpl.
      by rewrite <- ?app_assoc. }
    split; [by intros c1 c2 [_ ->]%eq_sym%app_eq_nil|].
    intros h'' [= <-]. exact Hmin. }
  destruct (body_at s) as [[[c' h'] r']|] eqn:Eb; [|done]. simpl.
  intros [= <- <- <-]. destruct (IH c' h' r' eq_refl) as (-> & Hc & Hh).
  split; [done|]. split; [|done].
  intros [|e c1] c2 Hc' Hc2; simpl in Hc'.
  - subst c2. done.
  - injection Hc' as -> ->. by eapply Hc.
Qed.


(** ** The matcher on a marker that is read off the text *)

Lemma lit2_fail {R} fl x y (F : str -> option R) (s : str) :
  (forall d, lit_match fl x d = true -> d = x) ->
  (forall d, lit_match fl y d = true -> d = y) ->
  starts [x; y] s = false ->
  match s with
  | [] => None
  | d :: s' =>
      if lit_match fl x d
      then match s' with
           | [] => None
           | d0 :: s'0 => if lit_match fl y d0 then F s'0 else None
           end
      else None
  end = None.
Proof.
  intros Hx Hy Hs. destruct s as [|d [|d0 s]]; [done| |].
  - by destruct (lit_match fl x d).
  - destruct (lit_match fl x d) eqn:E1; [|done].
    destruct (lit_match fl y d0) eqn:E2; [|done].
    apply Hx in E1 as ->. apply Hy in E2 as ->.
    pose proof (starts_app [x; y] s) as Hs'. simpl in Hs'. congruence.
Qed.

#[local] Opaque Nat.sub.

Lemma clozeReg_bt_first {R} ordre t (o c : str) h (rest : str)
    (k : str -> groups -> option R) x :
  is_tag t ->
  (forall (k' : str -> groups -> option R) g,
     k' (L "::" ++ c ++ hint_part h ++ L "}}" ++ rest) g = Some x ->
     (forall a1 a2, o = a1 ++ a2 -> a1 <> [] -> a2 <> [] ->
        k' (a2 ++ L "::" ++ c ++ hint_part h ++ L "}}" ++ rest) g = None) ->
     bt si_flags ordre (o ++ L "::" ++ c ++ hint_part h ++ L "}}" ++ rest) g k'
     = Some x) ->
  (forall a1 a2, o = a1 ++ a2 -> a1 <> [] -> a2 <> [] ->
     starts (L "::") (a2 ++ L "::" ++ c ++ hint_part h ++ L "}}" ++ rest) = false) ->
  (forall c1 c2, c = c1 ++ c2 -> c2 <> [] ->
     starts (L "}}") (c2 ++ hint_part h ++ L "}}" ++ rest) = false /\
     starts (L "::") (c2 ++ hint_part h ++ L "}}" ++ rest) = false) ->
  (forall h', h = Some h' -> forall h1 h2, h' = h1 ++ h2 -> h2 <> [] ->
     starts (L "}}") (h2 ++ L "}}" ++ rest) = false) ->
  k rest (marker_groups t c h) = Some x ->
  bt si_flags (clozeReg ordre) (raw (Clz t o c h) ++ rest) ∅ k = Some x.
Proof.
  intros Htag Hord Ho Hc Hh Hk.
  rewrite raw_clz_app. unfold clozeReg. simpl.
  apply lit_match_si_tag in Htag. rewrite Htag.
  apply (Hord _ _).
  2:{ intros a1 a2 E Ha1 Ha2. simpl.
      apply lit2_fail; [apply lit_si_colon..|]. by eapply Ho. }
  simpl.
  apply (star_lazy_dot_first si_flags); [done|apply dot_match_si| |].
  - intros a1 a2 E Ha2. destruct (Hc a1 a2 E Ha2) as [H1 H2].
    assert (forall A B : option R, A = None -> B = None -> orelse A B = None)
      as Hor by (by intros ? ? -> ->).
    apply Hor; (apply lit2_fail; [first [apply lit_si_colon|apply lit_si_close]..|done]).
  - rewrite (take_app_suffix c).
    match goal with
    | |- context [take (S (length ?T) - length ?T) (t :: ?T)] =>
        change (take (S (length T) - length T) (t :: T))
          with (take (length ([t] ++ T) - length T) ([t] ++ T));
        rewrite (take_app_suffix [t] T)
    end.
    destruct h as [h|]; simpl.
    + rewrite orelse_None_r.
      apply (star_lazy_dot_first si_flags); [done|apply dot_match_si| |].
      * intros a1 a2 E Ha2. apply lit2_fail; [apply lit_si_close..|].
        by eapply Hh.
      * simpl. rewrite (take_app_suffix h).
        match goal with
        | |- context [take ?n (":"%char :: ?T)] =>
            replace (take n (":"%char :: T)) with (L "::" ++ h)
              by (symmetry;
                  apply (take_app_suffix (L "::" ++ h)
                           ("}"%char :: "}"%char :: rest)))
        end.
        exact Hk.
    + exact Hk.
Qed.

Lemma clozeReg_match_first ordre t (o c : str) h (rest : str) :
  is_tag t ->
  (forall (k' : str -> groups -> option (Match * str)) g x,
     k' (L "::" ++ c ++ hint_part h ++ L "}}" ++ rest) g = Some x ->
     (forall a1 a2, o = a1 ++ a2 -> a1 <> [] -> a2 <> [] ->
        k' (a2 ++ L "::" ++ c ++ hint_part h ++ L "}}" ++ rest) g = None) ->
     bt si_flags ordre (o ++ L "::" ++ c ++ hint_part h ++ L "}}" ++ rest) g k'
     = Some x) ->
  (forall a1 a2, o = a1 ++ a2 -> a1 <> [] -> a2 <> [] ->
     starts (L "::") (a2 ++ L "::" ++ c ++ hint_part h ++ L "}}" ++ rest) = false) ->
  (forall c1 c2, c = c1 ++ c2 -> c2 <> [] ->
     starts (L "}}") (c2 ++ hint_part h ++ L "}}" ++ rest) = false /\
     starts (L "::") (c2 ++ hint_part h ++ L "}}" ++ rest) = false) ->
  (forall h', h = Some h' -> forall h1 h2, h' = h1 ++ h2 -> h2 <> [] ->
     starts (L "}}") (h2 ++ L "}}" ++ rest) = false) ->
  match_at si_flags (clozeReg ordre) false (raw (Clz t o c h) ++ rest)
  = Some ({| m_text := raw (Clz t o c h); m_groups := marker_groups t c h |},
          rest).
Proof.
  intros Htag Hord Ho Hc Hh. unfold match_at.
  apply clozeReg_bt_first; [done| |done..|].
  - intros k' g. apply Hord.
  - simpl andb. cbv iota. by rewrite take_app_suffix.
Qed.

#[local] Transparent Nat.sub.



Lemma digit_not_colons d (s : str) :
  is_digit d = true -> starts (L "::") (d :: s) = false.
Proof.
  intros Hd. destruct (starts (L "::") (d :: s)) eqn:E; [|done].
  apply starts_true in E. simpl in E. injection E as -> _. done.
Qed.

Lemma bt_Lits {R} (k s : str) g (k' : str -> groups -> option R) :
  bt si_flags (Lits k) (k ++ s) g k' = k' s g.
Proof.
  induction k as [|c k IH]; simpl; [done|].
  unfold lit_match. simpl. by rewrite bool_decide_eq_true_2.
Qed.

Lemma cloze_at_tag ord_at t (s1 : str) :
  is_tag t ->
  cloze_at ord_at (L "{{" ++ [t] ++ s1)
  = '(ord, s2) ← ord_at s1;
    '(content, hint, rest) ← body_at s2;
    Some (Clz t ord content hint, rest).
Proof.
  intros Ht. unfold cloze_at. simpl. by rewrite bool_decide_eq_true_2.
Qed.

Lemma cloze_at_shape ord_at (s : str) sg rest :
  cloze_at ord_at s = Some (sg, rest) ->
  exists t s1 o s2 c h,
    s = L "{{" ++ [t] ++ s1 /\ is_tag t /\ ord_at s1 = Some (o, s2) /\
    body_at s2 = Some (c, h, rest) /\ sg = Clz t o c h.
Proof.
  unfold cloze_at. destruct s as [|b1 [|b2 [|t s1]]]; [done..|].
  case_bool_decide as Hb; [|done]. destruct Hb as (-> & -> & Ht).
  destruct (ord_at s1) as [[o s2]|] eqn:Eo; [|done]. simpl.
  destruct (body_at s2) as [[[c h] r]|] eqn:Eb; [|done]. simpl.
  intros [= <- <-]. by exists t, s1, o, s2, c, h.
Qed.


Lemma this_cloze_at_Some (k s : str) sg rest :
  Forall (fun d => is_digit d = true) k ->
  cloze_at (this_ord_at k) s = Some (sg, rest) ->
  match_at si_flags (ord_cloze k) false s = Some (marker_match sg, rest) /\
  s = raw sg ++ rest /\ raw sg <> [] /\
  exists t c h, sg = Clz t k c h.
Proof.
  intros Hk (t & s1 & o & s2 & c & h & -> & Ht & Eo & Eb & ->)%cloze_at_shape.
  unfold this_ord_at in Eo. destruct (starts (k ++ L "::") s1) eqn:Es; [|done].
  injection Eo as <- <-. apply starts_true in Es.
  rewrite length_app, <- app_assoc in Es. simpl length in Es.
  revert Es Eb. generalize (drop (length k + 2) s1). intros s2 -> Eb.
  apply body_at_Some in Eb as (-> & Hc & Hh).
  assert (L "{{" ++ [t] ++ k ++ L "::" ++ c ++ hint_part h ++ L "}}" ++ rest
          = raw (Clz t k c h) ++ rest) as ->.
  { symmetry. exact (raw_clz_app t k c h rest). }
  split; [|split; [done|split; [done|eauto]]].
  apply clozeReg_match_first; [done| |  |done..].
  - intros k' g x Hk' _. by rewrite bt_Lits.
  - intros a1 [|d a2] -> Ha1 Ha2; [done|].
    apply digit_not_colons.
    apply Forall_app in Hk as [_ Hk]. by apply Forall_cons in Hk as [Hk _].
Qed.

Lemma cloze_at_None ordre ord_at (s : str) :
  (forall o g1 g2, Den si_flags ordre o g1 g2 -> g2 = g1) ->
  (forall o W g1 g2, Den si_flags ordre o g1 g2 ->
     exists o' s2 z, ord_at (o ++ L "::" ++ W) = Some (o', s2) /\ s2 = z ++ W) ->
  cloze_at ord_at s = None ->
  match_at si_flags (clozeReg ordre) false s = None.
Proof.
  intros Hg Hord Hs.
  destruct (match_at _ _ _ _) as [[m rest']|] eqn:E; [exfalso|done].
  apply match_at_sound in E as (E & D & _).
  apply Den_clozeReg in D as (t & o & c & Ht & Ho & _ & _ & HH); [|done].
  assert (exists u, s = L "{{" ++ [t] ++ o ++ L "::" ++ u ++ L "}}" ++ rest')
    as [u ->].
  { destruct HH as [[_ Hm]|(h & _ & Hm)]; rewrite Hm in E.
    - exists c. rewrite E. by rewrite <- !app_assoc.
    - exists (c ++ L "::" ++ h). rewrite E. by rewrite <- !app_assoc. }
  rewrite cloze_at_tag in Hs by done.
  remember (u ++ L "}}" ++ rest') as W eqn:EW.
  destruct (Hord o W _ _ Ho) as (o' & s2 & z & Eo & ->).
  rewrite Eo in Hs. simpl in Hs.
  destruct (body_at (z ++ W)) as [[[]]|] eqn:Eb; [done|].
  apply body_at_None in Eb. subst W.
  apply (upto_None _ _ Eb (z ++ u) rest'). by rewrite <- app_assoc.
Qed.


Lemma this_cloze_at_None (k s : str) :
  Forall (fun d => is_digit d = true) k ->
  cloze_at (this_ord_at k) s = None ->
  match_at si_flags (ord_cloze k) false s = None.
Proof.
  intros Hk. apply cloze_at_None.
  - intros o g1 g2 Ho. by apply Den_Lits_digits in Ho as [-> _].
  - intros o W g1 g2 Ho. apply Den_Lits_digits in Ho as [_ ->]; [|done].
    exists k, W, []. split; [|done]. unfold this_ord_at.
    rewrite app_assoc, starts_app. f_equal. f_equal.
    replace (length k + 2) with (length (k ++ L "::")) by (rewrite length_app; done).
    by rewrite drop_app_length.
Qed.


(** ** The scan for ordinals read as a scanner *)




#[local] Opaque Nat.sub.


#[local] Transparent Nat.sub.





(** ** The search loop on a scanner *)

Lemma parse_go_fuel at_ (n1 n2 : nat) :
  (forall (s : str) sg rest, at_ s = Some (sg, rest) -> length rest < length s) ->
  forall s : str, length s <= n1 -> length s <= n2 ->
    parse_go at_ n1 s = parse_go at_ n2 s.
Proof.
  intros Hat. revert n2. induction n1 as [|n1 IH]; intros n2 s H1 H2.
  - destruct s; [|simpl in H1; lia]. destruct n2; [done|]. simpl.
    destruct (at_ []) as [[sg rest]|] eqn:E; [|done].
    apply Hat in E. simpl in E. lia.
  - destruct n2 as [|n2].
    + destruct s; [|simpl in H2; lia]. simpl.
      destruct (at_ []) as [[sg rest]|] eqn:E; [|done].
      apply Hat in E. simpl in E. lia.
    + simpl. destruct (at_ s) as [[sg rest]|] eqn:E.
      * apply Hat in E. f_equal. apply IH; lia.
      * destruct s as [|c s]; [done|]. f_equal. apply IH; simpl in *; lia.
Qed.

Lemma re_sub_nil fl r repl :
  match_at fl r false [] = None -> re_sub fl r repl [] = [].
Proof. intros H. unfold re_sub, scan. simpl. by rewrite H. Qed.

Section Pass.

Variables (fl : flags) (r : regex) (at_ : str -> option (seg * str)).
Hypothesis at_Some : forall (s : str) sg rest,
  at_ s = Some (sg, rest) ->
  match_at fl r false s = Some (marker_match sg, rest) /\
  s = raw sg ++ rest /\ raw sg <> [] /\ exists t o c h, sg = Clz t o c h.
Hypothesis at_None : forall s : str,
  at_ s = None -> match_at fl r false s = None.

Lemma at_shorter (s : str) sg rest :
  at_ s = Some (sg, rest) -> length rest < length s.
Proof.
  intros (_ & -> & Hne & _)%at_Some. rewrite length_app.
  destruct (raw sg); [done|]. simpl. lia.
Qed.

(** The text is the concatenation of its pieces. *)
Lemma parse_go_text (n : nat) : forall s : str,
  length s <= n -> text_of (parse_go at_ n s) = s.
Proof.
  unfold text_of. induction n as [|n IH]; intros s Hn.
  - destruct s; [done|simpl in Hn; lia].
  - simpl. destruct (at_ s) as [[sg rest]|] eqn:E.
    + pose proof (at_shorter _ _ _ E) as Hlt.
      apply at_Some in E as (_ & -> & _). csimpl. rewrite IH; [done|lia].
    + destruct s as [|c s]; [done|]. csimpl. rewrite IH; [done|simpl in Hn; lia].
Qed.

(** [re.sub] replaces the markers of the text and keeps the characters
    between them. *)
Lemma re_sub_parse (repl : Match -> str) (out : seg -> str) (n : nat) :
  (forall t, out (Txt t) = t) ->
  (forall t o c h, out (Clz t o c h) = repl (marker_match (Clz t o c h))) ->
  forall s : str, length s <= n ->
    re_sub fl r repl s = concat (out <$> parse_go at_ n s).
Proof.
  intros Ht Hc. induction n as [|n IH]; intros s Hn.
  - destruct s; [|simpl in Hn; lia]. apply re_sub_nil.
    destruct (at_ []) as [[sg rest]|] eqn:E; [|by apply at_None].
    apply at_shorter in E. simpl in E. lia.
  - simpl. destruct (at_ s) as [[sg rest]|] eqn:E.
    + pose proof (at_shorter _ _ _ E) as Hlt.
      apply at_Some in E as (E & _ & Hne & (t & o & c & h & ->)).
      rewrite (re_sub_hit _ _ _ _ _ _ E Hne). csimpl.
      rewrite Hc, IH; [done|lia].
    + destruct s as [|c s]; [by apply re_sub_nil, at_None|].
      change (c :: s) with ([c] ++ s). rewrite re_sub_skip.
      * csimpl. rewrite Ht, IH; [done|simpl in Hn; lia].
      * intros [|d t1] t2 E' Ht2; simpl in E'.
        -- subst t2. by apply at_None.
        -- injection E' as _ E'. symmetry in E'.
           by apply app_eq_nil in E' as [_ ->].
Qed.

End Pass.


(** ** The passes of [expand_clozes] on the markers of a text *)



Lemma markers_of_text (k s : str) :
  Forall (fun d => is_digit d = true) k -> text_of (markers_of k s) = s.
Proof.
  intros Hk. apply (parse_go_text si_flags (ord_cloze k)); [|done].
  intros s' sg rest E.
  destruct (this_cloze_at_Some _ _ _ _ Hk E) as (Hm & Hs & Hne & t & c & h & ->).
  split_and!; [done..|]. eauto.
Qed.

Lemma mask_ord_markers (k s : str) :
  Forall (fun d => is_digit d = true) k ->
  mask_ord k s = concat (masked <$> markers_of k s).
Proof.
  intros Hk.
  apply (re_sub_parse si_flags (ord_cloze k) (cloze_at (this_ord_at k)));
    [| |done| |done].
  - intros s' sg rest E.
    destruct (this_cloze_at_Some _ _ _ _ Hk E) as (Hm & Hs & Hne & t & c & h & ->).
    split_and!; [done..|]. eauto.
  - intros s'. by apply this_cloze_at_None.
  - intros t o c h. symmetry. apply qrepl_marker.
Qed.

(** Every marker that the masking pass for [k] reads has the ordinal [k]. *)
Lemma markers_of_ord (k s : str) t o c h :
  Clz t o c h ∈ markers_of k s -> o = k.
Proof.
  unfold markers_of. generalize (length s). intros n. revert s.
  induction n as [|n IH]; intros s; simpl; [by intros ?%elem_of_nil|].
  destruct (cloze_at (this_ord_at k) s) as [[sg rest]|] eqn:E.
  - intros [Heq|Hin]%elem_of_cons; [subst sg|by eapply IH].
    apply cloze_at_shape in E as (t' & s1 & o' & s2 & c' & h' & _ & _ & Eo & _ & E).
    injection E as -> -> -> ->. unfold this_ord_at in Eo.
    destruct (starts _ _); [|done]. by injection Eo as -> _.
  - destruct s as [|d s]; [by intros ?%elem_of_nil|].
    intros [?|Hin]%elem_of_cons; [done|by eapply IH].
Qed.




(** * [expand_clozes] on the markers of the text *)



(** C8, amended: the masking pass for an ordinal [k] replaces each
    marker of [k], and nothing else, by its mask: the hint in square
    brackets when a non-empty hint was supplied, and [[...]] when the hint
    segment is absent or empty.  On a text whose markers are not nested
    the question-style variant for [k] shows these masks, and the content
    of every other marker. *)
Theorem mask_text_by_hint `{SetOrder} :
  (forall s k : str, k ∈ set_iter (found_ords s) ->
     text_of (markers_of k s) = s /\
     (forall t o c h, Clz t o c h ∈ markers_of k s -> o = k) /\
     mask_ord k s = concat (masked <$> markers_of k s)) /\
  (forall segs (k : str), Forall wf_seg segs ->
     k ∈ set_iter (found_ords (text_of segs)) ->
     question_variant (text_of segs) k = concat (question k <$> segs)).
Proof.
  split.
  - intros s k Hk. apply set_iter_elem, found_ords_spec in Hk as (_ & Hd & _).
    split; [by apply markers_of_text|].
    split; [intros t o c h; apply markers_of_ord|].
    by apply mask_ord_markers.
  - intros segs k Hwf Hk.
    apply set_iter_elem, found_ords_spec in Hk as (_ & Hd & _).
    by apply question_variant_flat.
Qed.



(** * Instances of the further properties on sample data *)

Lemma apply_custom_filters_no_pending_witness :
  apply_custom_filters no_field_filter no_runFilter
    [NText (L "a"); NRepl front_side_node] (Some (L "Q")) sample_ctx
  = (Ok (concat (node_text (Some (L "Q")) <$> [NText (L "a"); NRepl front_side_node]),
         inject_node (Some (L "Q")) <$> [NText (L "a"); NRepl front_side_node]),
     sample_ctx).
Proof.
  apply (apply_custom_filters_no_pending no_field_filter no_runFilter
           [NText (L "a"); NRepl front_side_node] (Some (L "Q")) sample_ctx).
  repeat constructor.
Defined.

Lemma apply_custom_filters_nodes_after_witness :
  [NRepl filtered_node] = inject_node None <$> [NRepl filtered_node] /\
  (@None str = None -> [NRepl filtered_node] = [NRepl filtered_node]).
Proof.
  apply (apply_custom_filters_nodes_after no_field_filter no_runFilter
           [NRepl filtered_node] [NRepl filtered_node] None (L "t")
           sample_ctx sample_ctx).
  reflexivity.
Defined.

Lemma apply_custom_filters_raises_witness :
  apply_custom_filters failing_field_filter no_runFilter
    ([NText (L "a")] ++ NRepl filtered_node :: [NText (L "b")]) None sample_ctx
  = (Raise (OtherException (L "boom")), sample_ctx).
Proof.
  apply (apply_custom_filters_raises failing_field_filter no_runFilter
           [NText (L "a")] [NText (L "b")] [NText (L "a")] filtered_node None
           (L "a") (OtherException (L "boom")) sample_ctx sample_ctx sample_ctx).
  - reflexivity.
  - reflexivity.
Defined.

Lemma render_card_from_context_no_pending_witness :
  render_card_from_context no_field_filter no_runFilter
    (initial_context
       (sample_col (Ok ([NText (L "q")], [NRepl front_side_node; NText (L "a")])))
       sample_card sample_note false ∅)
  = (Ok {| question_text := L "q"; answer_text := L "qa";
           question_av_tags := []; answer_av_tags := [] |},
     initial_context
       (sample_col (Ok ([NText (L "q")], [NRepl front_side_node; NText (L "a")])))
       sample_card sample_note false ∅).
Proof.
  etrans.
  - apply (render_card_from_context_no_pending no_field_filter no_runFilter
             (initial_context
                (sample_col (Ok ([NText (L "q")],
                                 [NRepl front_side_node; NText (L "a")])))
                sample_card sample_note false ∅)
             [NText (L "q")] [NRepl front_side_node; NText (L "a")]).
    + reflexivity.
    + repeat constructor.
    + repeat constructor.
  - reflexivity.
Defined.

Lemma render_card_template_error_witness :
  render_card (fun s => s) (L "https://help") no_field_filter no_runFilter
    (fun output => mret output)
    (sample_col (Raise (BackendException (L "unknown field")))) sample_card
    sample_note true
  = Ok {| question_text := L "Card template has a problem:<br>unknown field";
          answer_text := L "Card template has a problem:<br>unknown field";
          question_av_tags := []; answer_av_tags := [] |}.
Proof.
  destruct (fields_for_rendering_ok
              (sample_col (Raise (BackendException (L "unknown field"))))
              sample_card sample_note (L "Card 1")) as [fields Hf].
  { apply lookup_insert_eq. }
  etrans.
  - apply (render_card_template_error (fun s => s) (L "https://help")
             no_field_filter no_runFilter (fun output => mret output)
             (sample_col (Raise (BackendException (L "unknown field"))))
             sample_card sample_note true fields (L "unknown field") Hf).
    reflexivity.
  - reflexivity.
Defined.

Lemma render_card_propagates_witness :
  render_card (fun s => s) (L "https://help") failing_field_filter no_runFilter
    (fun output => mret output)
    (sample_col (Ok ([NRepl filtered_node], []))) sample_card sample_note false
  = Raise (OtherException (L "boom")).
Proof.
  destruct (fields_for_rendering_ok
              (sample_col (Ok ([NRepl filtered_node], [])))
              sample_card sample_note (L "Card 1")) as [fields Hf].
  { apply lookup_insert_eq. }
  apply (render_card_propagates (fun s => s) (L "https://help")
           failing_field_filter no_runFilter (fun output => mret output)
           (sample_col (Ok ([NRepl filtered_node], [])))
           sample_card sample_note false fields (L "boom")
           (initial_context (sample_col (Ok ([NRepl filtered_node], [])))
              sample_card sample_note false fields) Hf).
  reflexivity.
Defined.

Lemma render_card_keeps_question_witness :
  render_card (fun s => s) (L "https://help") no_field_filter no_runFilter
    (fun output => mret output)
    (sample_col (Ok ([NText (L "q")], [NText (L "a")]))) sample_card sample_note
    false
  = Ok {| question_text := L "q"; answer_text := L "a";
          question_av_tags := []; answer_av_tags := [] |}.
Proof.
  destruct (fields_for_rendering_ok
              (sample_col (Ok ([NText (L "q")], [NText (L "a")])))
              sample_card sample_note (L "Card 1")) as [fields Hf].
  { apply lookup_insert_eq. }
  etrans.
  - apply (render_card_keeps_question (fun s => s) (L "https://help")
             no_field_filter no_runFilter (fun output => mret output)
             (sample_col (Ok ([NText (L "q")], [NText (L "a")])))
             sample_card sample_note false fields
             {| question_text := L "q"; answer_text := L "a";
                question_av_tags := []; answer_av_tags := [] |}
             (initial_context (sample_col (Ok ([NText (L "q")], [NText (L "a")])))
                sample_card sample_note false fields) Hf).
    + reflexivity.
    + exists "q"%char. split; [left|reflexivity].
  - reflexivity.
Defined.

Lemma render_card_question_not_blank_witness :
  exists output : TemplateRenderOutput unit,
    render_card (fun s => s) (L "https://help") no_field_filter no_runFilter
      (fun output => mret output)
      (sample_col (Ok ([NText (L " ")], [NText (L "a")]))) sample_card sample_note
      false
    = Ok output /\
    exists c, c ∈ question_text output /\ is_space c = false.
Proof.
  destruct (fields_for_rendering_ok
              (sample_col (Ok ([NText (L " ")], [NText (L "a")])))
              sample_card sample_note (L "Card 1")) as [fields Hf].
  { apply lookup_insert_eq. }
  destruct (render_card_question_not_blank (fun s => s) (L "https://help")
           no_field_filter no_runFilter (fun output => mret output)
           (sample_col (Ok ([NText (L " ")], [NText (L "a")])))
           sample_card sample_note false fields
           (Ok {| question_text := L " "; answer_text := L "a";
                  question_av_tags := []; answer_av_tags := [] |})
           (initial_context (sample_col (Ok ([NText (L " ")], [NText (L "a")])))
              sample_card sample_note false fields) Hf)
    as (output & E & Hc).
  - reflexivity.
  - intros e. discriminate.
  - exists output. split; [exact E|exact Hc].
Defined.

Lemma fields_for_rendering_special_witness :
  exists fields,
    fields_for_rendering (sample_col (Ok ([], []))) sample_card sample_note
      = Ok fields /\
    fields !! L "Tags" = Some (strip (note_stringTags sample_note)) /\
    fields !! L "Type" = Some (card_note_type_name sample_card) /\
    fields !! L "Deck"
      = Some (decks_name (sample_col (Ok ([], []))) (card_did sample_card)) /\
    fields !! L "Card" = card_template sample_card !! L "name" /\
    fields !! L "CardFlag"
      = Some (if card_userFlag sample_card =? 0 then []
              else L "flag" ++ decimal (card_userFlag sample_card)) /\
    fields !! (L "c" ++ decimal (card_ord sample_card + 1)) = Some (L "1").
Proof.
  destruct (fields_for_rendering_ok (sample_col (Ok ([], [])))
              sample_card sample_note (L "Card 1")) as [fields Hf].
  { apply lookup_insert_eq. }
  exists fields. split; [exact Hf|].
  apply (fields_for_rendering_special unit (sample_col (Ok ([], [])))
           sample_card sample_note fields Hf).
Defined.

Lemma fields_for_rendering_note_field_witness :
  exists fields,
    fields_for_rendering (sample_col (Ok ([], []))) sample_card sample_note
      = Ok fields /\
    fields !! L "Front" = note_field sample_note (L "Front").
Proof.
  destruct (fields_for_rendering_ok (sample_col (Ok ([], [])))
              sample_card sample_note (L "Card 1")) as [fields Hf].
  { apply lookup_insert_eq. }
  exists fields. split; [exact Hf|].
  apply (fields_for_rendering_note_field unit (sample_col (Ok ([], [])))
           sample_card sample_note fields (L "Front") Hf).
  apply (bool_decide_eq_false_1 _). vm_compute. reflexivity.
Defined.

Lemma fields_for_rendering_subdeck_witness :
  exists fields,
    fields_for_rendering (sample_col (Ok ([], []))) sample_card sample_note
      = Ok fields /\
    exists subdeck pre,
      fields !! L "Subdeck" = Some subdeck /\
      ~ has_sep subdeck /\
      decks_name (sample_col (Ok ([], []))) (card_did sample_card) = pre ++ subdeck /\
      (pre = [] \/ exists p, pre = p ++ L "::").
Proof.
  destruct (fields_for_rendering_ok (sample_col (Ok ([], [])))
              sample_card sample_note (L "Card 1")) as [fields Hf].
  { apply lookup_insert_eq. }
  exists fields. split; [exact Hf|].
  apply (fields_for_rendering_subdeck unit (sample_col (Ok ([], [])))
           sample_card sample_note fields Hf).
Defined.

Lemma expand_clozes_unclosed_witness :
  expand_clozes (L "{{c1::open") = [L "{{c1::open"].
Proof.
  apply (expand_clozes_unclosed (L "{{c1::open")).
  intros (a & b & E).
  assert ("}"%char ∈ L "{{c1::open") as Hin.
  { rewrite E. apply elem_of_app. right. left. }
  revert Hin. apply (bool_decide_eq_false_1 _). vm_compute. reflexivity.
Defined.

Lemma expand_clozes_lower_case_scan_witness :
  found_ords (L "{{C1::x}}") = [] /\
  expand_clozes (L "{{C1::x}}") = [reveal_all (L "{{C1::x}}")].
Proof.
  apply (expand_clozes_lower_case_scan (L "{{C1::x}}")).
  intros (a & b & E).
  assert ("c"%char ∈ L "{{C1::x}}") as Hin.
  { rewrite E. apply elem_of_app. right. do 2 right. left. }
  revert Hin. apply (bool_decide_eq_false_1 _). vm_compute. reflexivity.
Defined.

Lemma sample_segs_wf : Forall wf_seg sample_segs.
Proof.
  assert (forall (c : ascii) (s : str), bool_decide (c ∈ s) = false -> c ∉ s) as Hd.
  { intros c s. apply bool_decide_eq_false_1. }
  unfold sample_segs. repeat apply Forall_cons_2; [| | | |apply Forall_nil_2].
  - by apply Hd.
  - split_and!; [by left|done|by repeat constructor|done|by apply Hd..].
  - by apply Hd.
  - split_and!; [by right|done|by repeat constructor|done|by apply Hd..].
Qed.

Lemma expand_clozes_flat_witness :
  expand_clozes (L "a {{c1::x::h}} {{C2::y}}") = [L "a [h] y"; L "a x y"].
Proof.
  change (expand_clozes (text_of sample_segs) = [L "a [h] y"; L "a x y"]).
  etrans.
  - apply (expand_clozes_flat sample_segs sample_segs_wf).
  - vm_compute. reflexivity.
Defined.

Lemma render_card_missing_name_witness :
  fields_for_rendering (sample_col (Ok ([], []))) sample_card_no_name sample_note
    = Raise (OtherException (L "KeyError: 'name'")) /\
  render_card (fun s => s) (L "https://help") no_field_filter no_runFilter
    (fun output => mret output)
    (sample_col (Ok ([], []))) sample_card_no_name sample_note false
  = Raise (OtherException (L "KeyError: 'name'")).
Proof.
  apply (render_card_missing_name (fun s => s) (L "https://help")
           no_field_filter no_runFilter (fun output => mret output)
           (sample_col (Ok ([], []))) sample_card_no_name sample_note false).
  apply lookup_empty.
Defined.


Lemma mask_text_by_hint_witness :
  mask_ord (L "1") (L "{{c1::Paris::capital}} {{C1::x::}} {{c2::y}}")
  = concat (masked <$> markers_of (L "1")
                         (L "{{c1::Paris::capital}} {{C1::x::}} {{c2::y}}")) /\
  question_variant (text_of sample_segs) (L "1")
  = concat (question (L "1") <$> sample_segs).
Proof.
  split.
  - apply (proj1 mask_text_by_hint
             (L "{{c1::Paris::capital}} {{C1::x::}} {{c2::y}}") (L "1")).
    vm_compute. left.
  - apply (proj2 mask_text_by_hint sample_segs (L "1") sample_segs_wf).
    vm_compute. left.
Defined.

